(** * Invisible Line Break plugin (src/main.ts): model and properties

    The plugin post-processes a rendered DOM subtree: every text node whose
    data contains the configured trigger word is replaced, in its parent, by
    the pieces of the text around the trigger word with a line-break element
    between consecutive pieces.

    JavaScript strings are sequences of UTF-16 code units; they are modelled
    as lists of code units.  DOM nodes are objects with an identity; the
    subtree handed to the plugin is modelled as a rose tree whose nodes carry
    their identity, and [document.create*] draws identities from a counter. *)

From Stdlib Require Import String Ascii NArith Lia.
From stdpp Require Import base decidable option numbers list sets.

Set Warnings "-register-all,-clear-no-such-hyp".
Local Open Scope nat_scope.

(** ** JavaScript strings *)

Definition CodeUnit := N.
Definition JSString := list CodeUnit.

(** An ASCII literal as a JavaScript string. *)
Definition js (s : string) : JSString :=
  N_of_ascii <$> list_ascii_of_string s.

Module JS.

(** [s.indexOf(sep)]: the least position at which [sep] occurs in [s];
    [None] stands for [-1]. *)
Fixpoint indexOf (s sep : JSString) : option nat :=
  if bool_decide (sep `prefix_of` s) then Some 0
  else match s with
       | [] => None
       | _ :: s' => S <$> indexOf s' sep
       end.

(** [s.includes(sep)] is [s.indexOf(sep) !== -1]. *)
Definition includes (s sep : JSString) : bool :=
  bool_decide (is_Some (indexOf s sep)).

(** The loop of [String.prototype.split] for a non-empty separator, on the
    part of the string that is still to be scanned: cut at the leftmost
    occurrence, continue after it, and end with the rest.  An iteration
    consumes at least one code unit, so [length s] iterations are enough
    (see [split_loop_unfold]). *)
Fixpoint split_loop (fuel : nat) (s sep : JSString) : list JSString :=
  match indexOf s sep, fuel with
  | Some j, S fuel' =>
      take j s :: split_loop fuel' (drop (j + length sep) s) sep
  | _, _ => [s]
  end.

(** [s.split(sep)] with a string separator and no limit: an empty separator
    splits into the code units (none for the empty string); otherwise the
    pieces between the leftmost non-overlapping occurrences. *)
Definition split (s sep : JSString) : list JSString :=
  match sep with
  | [] => (λ c, [c]) <$> s
  | _ :: _ => split_loop (length s) s sep
  end.

(** The number of occurrences of [sep] met by a left-to-right scan that
    resumes after each occurrence (occurrences do not overlap). *)
Fixpoint occurrences_loop (fuel : nat) (s sep : JSString) : nat :=
  match indexOf s sep, fuel with
  | Some j, S fuel' => S (occurrences_loop fuel' (drop (j + length sep) s) sep)
  | _, _ => 0
  end.

Definition occurrences (s sep : JSString) : nat :=
  occurrences_loop (length s) s sep.

(** [parts.join(sep)]. *)
Fixpoint join (parts : list JSString) (sep : JSString) : JSString :=
  match parts with
  | [] => []
  | [p] => p
  | p :: ps => p ++ sep ++ join ps sep
  end.

(** [value || fallback] on strings: the empty string is falsy. *)
Definition or_else (value fallback : JSString) : JSString :=
  match value with
  | [] => fallback
  | _ :: _ => value
  end.

End JS.

(** ** Settings *)

Record LineBreakSettings := {
  triggerWord : JSString;
  breakMethod : JSString;
  enabled : bool
}.

Definition DEFAULT_SETTINGS : LineBreakSettings :=
  {| triggerWord := js ".break.";
     breakMethod := js "zero-width";
     enabled := true |}.

(** What [loadData()] finds in the plugin's data file: an object on which
    each of the three properties is present or not. *)
Record StoredSettings := {
  storedTriggerWord : option JSString;
  storedBreakMethod : option JSString;
  storedEnabled : option bool
}.

(** [Object.assign(target, source)] on settings objects: every property that
    is present on [source] overwrites the one of [target]. *)
Definition assign (target : LineBreakSettings) (source : StoredSettings)
  : LineBreakSettings :=
  {| triggerWord := default (triggerWord target) (storedTriggerWord source);
     breakMethod := default (breakMethod target) (storedBreakMethod source);
     enabled := default (enabled target) (storedEnabled source) |}.

(** [loadSettings]: [Object.assign({}, DEFAULT_SETTINGS, await loadData())];
    [loadData()] is [null] ([None]) when nothing was saved, and
    [Object.assign] skips a [null] source. *)
Definition loadSettings (data : option StoredSettings) : LineBreakSettings :=
  match data with
  | None => DEFAULT_SETTINGS
  | Some stored => assign DEFAULT_SETTINGS stored
  end.

(** [saveSettings] writes the whole settings object to the data file. *)
Definition saveSettings (settings : LineBreakSettings) : StoredSettings :=
  {| storedTriggerWord := Some (triggerWord settings);
     storedBreakMethod := Some (breakMethod settings);
     storedEnabled := Some (enabled settings) |}.

(** The [onChange] handler of the trigger-word field of the settings tab:
    [settings.triggerWord = value || '.break.']. *)
Definition onChangeTriggerWord (settings : LineBreakSettings) (value : JSString)
  : LineBreakSettings :=
  {| triggerWord := JS.or_else value (js ".break.");
     breakMethod := breakMethod settings;
     enabled := enabled settings |}.

(** ** The DOM subtree *)

Definition NodeId := nat.

Inductive Node :=
| Text (id : NodeId) (data : JSString)
| Element (id : NodeId) (tagName : JSString)
    (style : list (JSString * JSString)) (nodes : list Node).

Definition nodeId (n : Node) : NodeId :=
  match n with
  | Text i _ => i
  | Element i _ _ _ => i
  end.

Definition isText (n : Node) : bool :=
  match n with
  | Text _ _ => true
  | Element _ _ _ _ => false
  end.

(** [node.childNodes]. *)
Definition childNodes (n : Node) : list Node :=
  match n with
  | Text _ _ => []
  | Element _ _ _ cs => cs
  end.

(** [node.textContent]: the data of a text node, the concatenated text of
    the descendants of an element. *)
Fixpoint textContent (n : Node) : JSString :=
  match n with
  | Text _ d => d
  | Element _ _ _ cs => cs ≫= textContent
  end.

(** The identities of a node and of all its descendants. *)
Fixpoint ids (n : Node) : list NodeId :=
  match n with
  | Text i _ => [i]
  | Element i _ _ cs => i :: (cs ≫= ids)
  end.

(** The descendants of a node in document order (the node itself left out):
    the sequence a [TreeWalker] rooted at the node steps through. *)
Fixpoint descendants (n : Node) : list Node :=
  match n with
  | Text _ _ => []
  | Element _ _ _ cs => cs ≫= (λ c, c :: descendants c)
  end.

(** The nodes returned by the successive [walker.nextNode()] calls of
    [document.createTreeWalker(root, NodeFilter.SHOW_TEXT, null)]. *)
Definition treeWalkerShowText (root : Node) : list Node :=
  filter (λ n, isText n = true) (descendants root).

(** [node.parentNode] for a node of the subtree under [root]: the element
    that has the node among its children; [None] ([null]) when the node is
    not below [root]. *)
Fixpoint parentNode (root : Node) (target : NodeId) : option NodeId :=
  match root with
  | Text _ _ => None
  | Element i _ _ cs =>
      if bool_decide (target ∈ nodeId <$> cs) then Some i
      else head (omap (λ c, parentNode c target) cs)
  end.

(** Replace the child [child] of a child list by the nodes of a fragment;
    [None] when the list has no such child. *)
Fixpoint splice (cs : list Node) (fragment : list Node) (child : NodeId)
  : option (list Node) :=
  match cs with
  | [] => None
  | c :: cs' =>
      if decide (nodeId c = child) then Some (fragment ++ cs')
      else (c ::.) <$> splice cs' fragment child
  end.

(** [parent.replaceChild(fragment, child)] on the element [parent] of the
    subtree under [root]: the children of the fragment take the place of
    [child].  [None] stands for the [NotFoundError] the DOM throws when
    [child] is not a child of [parent]. *)
Fixpoint replaceChild (root : Node) (parent : NodeId) (fragment : list Node)
  (child : NodeId) : option Node :=
  match root with
  | Text _ _ => None
  | Element i tag st cs =>
      if decide (i = parent) then Element i tag st <$> splice cs fragment child
      else
        Element i tag st <$>
          (fix inChildren (cs : list Node) : option (list Node) :=
             match cs with
             | [] => None
             | c :: cs' =>
                 match replaceChild c parent fragment child with
                 | Some c' => Some (c' :: cs')
                 | None => (c ::.) <$> inChildren cs'
                 end
             end) cs
  end.

(** The state the plugin works on: the subtree under the element handed to
    the post processor, and the next identity [document.create*] gives out. *)
Definition Dom : Type := Node * NodeId.

Definition createTextNode (data : JSString) (next : NodeId) : Node * NodeId :=
  (Text next data, S next).

(** ** The plugin *)

(** [createLineBreak]: the element that stands for one line break.  Assigning
    ['&#8203;'] to [innerHTML] gives the span one text child holding the
    zero-width space U+200B; the value of [style.content] is two double
    quotes (code unit 34). *)
Definition createLineBreak (settings : LineBreakSettings) (next : NodeId)
  : Node * NodeId :=
  if decide (breakMethod settings = js "zero-width") then
    (Element next (js "span")
       [(js "display", js "block"); (js "height", js "1em");
        (js "lineHeight", js "1em")]
       [Text (S next) [8203%N]], S (S next))
  else if decide (breakMethod settings = js "html-br") then
    (Element next (js "br") [] [], S next)
  else if decide (breakMethod settings = js "css-break") then
    (Element next (js "span")
       [(js "display", js "block"); (js "content", [34%N; 34%N]);
        (js "marginTop", js "1em")]
       [], S next)
  else
    (Element next (js "br") [] [], S next).

(** The body of [parts.forEach((part, index) => ...)]: the fragment built so
    far and the identity counter are the state. *)
Definition appendPart (settings : LineBreakSettings) (len : nat)
  (acc : list Node * NodeId) (entry : nat * JSString) : list Node * NodeId :=
  let '(index, part) := entry in
  let acc1 :=
    if bool_decide (0 < length part) then
      let '(t, next) := createTextNode part acc.2 in (acc.1 ++ [t], next)
    else acc in
  if bool_decide (index < len - 1) then
    let '(br, next) := createLineBreak settings acc1.2 in (acc1.1 ++ [br], next)
  else acc1.

(** The children of the document fragment after the [forEach].  The
    fragment itself gets no identity: it never enters the tree. *)
Definition buildFragment (settings : LineBreakSettings) (parts : list JSString)
  (next : NodeId) : list Node * NodeId :=
  foldl (appendPart settings (length parts)) ([], next) (imap pair parts).

(** [replaceTextNodeWithBreaks(textNode, text)]; [None] when a DOM call
    throws. *)
Definition replaceTextNodeWithBreaks (settings : LineBreakSettings) (dom : Dom)
  (textNode : Node) (text : JSString) : option Dom :=
  let parts := JS.split text (triggerWord settings) in
  if bool_decide (length parts ≤ 1) then Some dom
  else
    match parentNode dom.1 (nodeId textNode) with
    | None => Some dom
    | Some parent =>
        let '(fragment, next) := buildFragment settings parts dom.2 in
        root' ← replaceChild dom.1 parent fragment (nodeId textNode);
        Some (root', next)
    end.

(** The first loop of [processLineBreaks]: the text nodes under [root] whose
    text includes the trigger word, in document order. *)
Definition collectTextNodes (settings : LineBreakSettings) (root : Node)
  : list Node :=
  filter (λ n, JS.includes (textContent n) (triggerWord settings) = true)
    (treeWalkerShowText root).

(** The body of [textNodes.forEach(textNode => ...)]. *)
Definition replaceIfIncluded (settings : LineBreakSettings) (dom : Dom)
  (textNode : Node) : option Dom :=
  let text := JS.or_else (textContent textNode) [] in
  if JS.includes text (triggerWord settings)
  then replaceTextNodeWithBreaks settings dom textNode text
  else Some dom.

(** [textNodes.forEach(...)]: an exception ends the loop.  A node of the
    list is the value it had when it was put there: the plugin never changes
    the data of a text node, so [textNode.textContent] is the same at its
    turn. *)
Definition forEachTextNode (settings : LineBreakSettings)
  (textNodes : list Node) (dom : Dom) : option Dom :=
  foldl (λ acc textNode, dom' ← acc; replaceIfIncluded settings dom' textNode)
    (Some dom) textNodes.

(** The post-processor context; the plugin does not read it. *)
Record MarkdownPostProcessorContext := {
  docId : JSString;
  sourcePath : JSString
}.

Definition processLineBreaks (settings : LineBreakSettings) (dom : Dom)
  (context : MarkdownPostProcessorContext) : option Dom :=
  forEachTextNode settings (collectTextNodes settings dom.1) dom.

Definition processLivePreview (settings : LineBreakSettings) (dom : Dom)
  (context : MarkdownPostProcessorContext) : option Dom :=
  processLineBreaks settings dom context.

(** The two post processors registered by [onload]. *)
Definition postProcessor (settings : LineBreakSettings) (dom : Dom)
  (context : MarkdownPostProcessorContext) : option Dom :=
  if negb (enabled settings) then Some dom
  else processLineBreaks settings dom context.

Definition livePreviewPostProcessor (settings : LineBreakSettings) (dom : Dom)
  (context : MarkdownPostProcessorContext) : option Dom :=
  if negb (enabled settings) then Some dom
  else processLivePreview settings dom context.

(** ** Shapes: nodes without their identity *)

Inductive Shape :=
| TextFragment (data : JSString)
| Markup (tagName : JSString) (style : list (JSString * JSString))
    (content : list Shape).

Fixpoint shape (n : Node) : Shape :=
  match n with
  | Text _ d => TextFragment d
  | Element _ tag st cs => Markup tag st (shape <$> cs)
  end.

(** The shape of the element [createLineBreak] returns. *)
Definition BreakMarker (settings : LineBreakSettings) : Shape :=
  shape (createLineBreak settings 0).1.

(** A DOM state is well formed when identities are unique and all below the
    counter. *)
Definition wf (dom : Dom) : Prop :=
  NoDup (ids dom.1) ∧ Forall (λ i, i < dom.2) (ids dom.1).

(** ** Notions the properties are stated with *)

(** The text a node of a replacement sequence stands for: a text node for
    its data, a line-break element for the trigger word. *)
Definition restore (settings : LineBreakSettings) (n : Node) : JSString :=
  match n with
  | Text _ d => d
  | Element _ _ _ _ => triggerWord settings
  end.

(** The line-break elements of a sequence of nodes. *)
Definition breakMarkers (nodes : list Node) : list Node :=
  filter (λ n, isText n = false) nodes.

(** The text nodes of a sequence of nodes. *)
Definition textFragments (nodes : list Node) : list Node :=
  filter (λ n, isText n = true) nodes.

(** The replacement sequence as a list of shapes: a text fragment for each
    non-empty piece, a marker after each piece but the last. *)
Fixpoint replacementSequence (marker : Shape) (parts : list JSString)
  : list Shape :=
  match parts with
  | [] => []
  | part :: rest =>
      (if bool_decide (0 < length part) then [TextFragment part] else [])
      ++ match rest with
         | [] => []
         | _ :: _ => marker :: replacementSequence marker rest
         end
  end.

(** [buildFragment] by recursion on the pieces. *)
Fixpoint fragmentFrom (settings : LineBreakSettings) (parts : list JSString)
  (next : NodeId) : list Node * NodeId :=
  match parts with
  | [] => ([], next)
  | part :: rest =>
      let acc1 :=
        if bool_decide (0 < length part) then ([Text next part], S next)
        else ([], next) in
      match rest with
      | [] => acc1
      | _ :: _ =>
          let br := createLineBreak settings acc1.2 in
          let more := fragmentFrom settings rest br.2 in
          (acc1.1 ++ br.1 :: more.1, more.2)
      end
  end.

Global Instance wf_dec (dom : Dom) : Decision (wf dom).
Proof. unfold wf. apply _. Defined.

(** A decidable proposition about a concrete state holds when its decision
    procedure computes to true. *)
Ltac by_decision := apply (bool_decide_unpack _); vm_compute; exact I.

(** ** The substitution in one pass *)

(** Map a function that yields several results over a list while threading
    a state. *)
Fixpoint bindAccum {A B S : Type} (f : A → S → list B * S) (l : list A) (s : S)
  : list B * S :=
  match l with
  | [] => ([], s)
  | x :: l' =>
      let r := f x s in
      let r' := bindAccum f l' r.2 in
      (r.1 ++ r'.1, r'.2)
  end.

(** What a node of a child list becomes: a text node whose data includes the
    trigger word, and splits into two pieces or more, becomes its fragment;
    any other text node stays; an element keeps its identity, tag and style,
    and its children are substituted in turn.  Identities are drawn in
    document order. *)
Fixpoint substitute (settings : LineBreakSettings) (n : Node) (next : NodeId)
  : list Node * NodeId :=
  match n with
  | Text i d =>
      let parts := JS.split d (triggerWord settings) in
      if JS.includes d (triggerWord settings) && bool_decide (2 ≤ length parts)
      then buildFragment settings parts next
      else ([n], next)
  | Element i tag st cs =>
      let r := bindAccum (substitute settings) cs next in
      ([Element i tag st r.1], r.2)
  end.

(** The substitution below a root; the root itself is never replaced. *)
Definition substituteBelow (settings : LineBreakSettings) (dom : Dom) : Dom :=
  match dom.1 with
  | Text _ _ => dom
  | Element i tag st cs =>
      let r := bindAccum (substitute settings) cs dom.2 in
      (Element i tag st r.1, r.2)
  end.

(** [becomes settings dom context p tag st pre n post mid]: on [dom],
    [processLineBreaks] returns, and the element [p] that had the children
    [pre ++ n :: post] has the children [pre' ++ mid ++ post'] in the
    result, where [pre'] and [post'] are what [processLineBreaks] makes of
    the siblings before and after [n].  So [mid] is what stands in the
    place of [n] after the call. *)
Definition becomes (settings : LineBreakSettings) (dom : Dom)
  (context : MarkdownPostProcessorContext) (p : NodeId) (tag : JSString)
  (st : list (JSString * JSString)) (pre : list Node) (n : Node)
  (post mid : list Node) : Prop :=
  ∃ root' next' m1 pre' m2 m3 post' m4,
    processLineBreaks settings dom context = Some (root', next')
    ∧ Element p tag st (pre' ++ mid ++ post') ∈ root' :: descendants root'
    ∧ processLineBreaks settings (Element p tag st pre, m1) context
      = Some (Element p tag st pre', m2)
    ∧ processLineBreaks settings (Element p tag st post, m3) context
      = Some (Element p tag st post', m4).

(** The elements of a list with a separator between every two neighbours. *)
Fixpoint intersperse {A : Type} (sep : A) (l : list A) : list A :=
  match l with
  | [] => []
  | [x] => [x]
  | x :: l' => x :: sep :: intersperse sep l'
  end.

(** The three marker shapes of the data model: a block of one line's
    height that holds a zero-width space; a line-break element without
    content; a block with a top margin of one line and no content. *)
Definition ZERO_WIDTH : Shape :=
  Markup (js "span")
    [(js "display", js "block"); (js "height", js "1em");
     (js "lineHeight", js "1em")]
    [TextFragment [8203%N]].

Definition HARD_BREAK : Shape := Markup (js "br") [] [].

Definition CSS_BLOCK : Shape :=
  Markup (js "span")
    [(js "display", js "block"); (js "content", [34%N; 34%N]);
     (js "marginTop", js "1em")]
    [].

(** ** Notions used in the proofs *)

(** What a node of a child list becomes when the node [target] below it, or
    the node itself, is replaced by a fragment. *)
Fixpoint replaceNode (target : NodeId) (fragment : list Node) (n : Node)
  : list Node :=
  if decide (nodeId n = target) then fragment
  else match n with
       | Text _ _ => [n]
       | Element i tag st cs =>
           [Element i tag st (cs ≫= replaceNode target fragment)]
       end.

(** The inner loop of [replaceChild]: the first child in which the
    replacement succeeds. *)
Definition replaceChildIn (parent : NodeId) (fragment : list Node)
  (child : NodeId) : list Node → option (list Node) :=
  fix inChildren (cs : list Node) : option (list Node) :=
    match cs with
    | [] => None
    | c :: cs' =>
        match replaceChild c parent fragment child with
        | Some c' => Some (c' :: cs')
        | None => (c ::.) <$> inChildren cs'
        end
    end.

(** One round of [textNodes.forEach] on the children of the root. *)
Definition stepBelow (settings : LineBreakSettings) (st : list Node * NodeId)
  (textNode : Node) : list Node * NodeId :=
  let text := textContent textNode in
  let parts := JS.split text (triggerWord settings) in
  if JS.includes text (triggerWord settings)
     && bool_decide (2 ≤ length parts)
     && bool_decide (nodeId textNode ∈ st.1 ≫= ids)
  then
    let frag := buildFragment settings parts st.2 in
    (st.1 ≫= replaceNode (nodeId textNode) frag.1, frag.2)
  else st.

(** The text nodes collected from a node and its descendants. *)
Definition collectFrom (settings : LineBreakSettings) (n : Node) : list Node :=
  filter (λ n, JS.includes (textContent n) (triggerWord settings) = true)
    (filter (λ n, isText n = true) (n :: descendants n)).

(** ** The settings tab and the data file *)

(** The [onChange] handler of the toggle: [settings.enabled = value]. *)
Definition onChangeEnabled (settings : LineBreakSettings) (value : bool)
  : LineBreakSettings :=
  {| triggerWord := triggerWord settings;
     breakMethod := breakMethod settings;
     enabled := value |}.

(** The [onChange] handler of the dropdown: [settings.breakMethod = value]. *)
Definition onChangeBreakMethod (settings : LineBreakSettings) (value : JSString)
  : LineBreakSettings :=
  {| triggerWord := triggerWord settings;
     breakMethod := value;
     enabled := enabled settings |}.

(** The plugin's settings object and the content of its data file. *)
Record Plugin := {
  pluginSettings : LineBreakSettings;
  pluginData : option StoredSettings
}.

(** [onload] sets the settings from the data file. *)
Definition onload (data : option StoredSettings) : Plugin :=
  {| pluginSettings := loadSettings data; pluginData := data |}.

(** What happens to the plugin: it is loaded again, or one of the three
    controls of the settings tab changes.  Every handler of the tab sets its
    property and then awaits [saveSettings()]. *)
Inductive Event :=
| Reload
| Toggle (value : bool)
| TypeTriggerWord (value : JSString)
| ChooseBreakMethod (value : JSString).

Definition saved (settings : LineBreakSettings) : Plugin :=
  {| pluginSettings := settings; pluginData := Some (saveSettings settings) |}.

Definition handle (plugin : Plugin) (event : Event) : Plugin :=
  match event with
  | Reload => onload (pluginData plugin)
  | Toggle value => saved (onChangeEnabled (pluginSettings plugin) value)
  | TypeTriggerWord value =>
      saved (onChangeTriggerWord (pluginSettings plugin) value)
  | ChooseBreakMethod value =>
      saved (onChangeBreakMethod (pluginSettings plugin) value)
  end.

(** ** More notions the properties are stated with *)

(** The text of the element [createLineBreak] returns: a zero-width space
    for ['zero-width'], nothing for the other methods. *)
Definition markerText (settings : LineBreakSettings) : JSString :=
  textContent (createLineBreak settings 0).1.

(** The substitution on shapes. *)
Fixpoint substituteShape (settings : LineBreakSettings) (sh : Shape)
  : list Shape :=
  match sh with
  | TextFragment d =>
      let parts := JS.split d (triggerWord settings) in
      if JS.includes d (triggerWord settings) && bool_decide (2 ≤ length parts)
      then replacementSequence (BreakMarker settings) parts
      else [sh]
  | Markup tag st cs => [Markup tag st (cs ≫= substituteShape settings)]
  end.

(** The elements among a sequence of nodes. *)
Definition elementsOf (nodes : list Node) : list Node :=
  filter (λ n, isText n = false) nodes.

(** * Properties *)

Example split_scenario :
  JS.split (js "First line.break.Second line") (js ".break.")
  = [js "First line"; js "Second line"].
Proof. vm_compute. reflexivity. Qed.

Example split_adjacent :
  JS.split (js "A.break..break.B") (js ".break.") = [js "A"; []; js "B"].
Proof. vm_compute. reflexivity. Qed.

Example split_empty_sep : JS.split (js "abc") [] = [js "a"; js "b"; js "c"].
Proof. vm_compute. reflexivity. Qed.

Example split_empty_both : JS.split [] [] = [].
Proof. reflexivity. Qed.

Example split_empty_string : JS.split [] (js ".break.") = [[]].
Proof. reflexivity. Qed.

Example split_overlapping : JS.split (js "aaab") (js "aa") = [[]; js "ab"].
Proof. vm_compute. reflexivity. Qed.

Example occurrences_adjacent :
  JS.occurrences (js "A.break..break.B") (js ".break.") = 2.
Proof. vm_compute. reflexivity. Qed.

Example occurrences_overlapping : JS.occurrences (js "aaa") (js "aa") = 1.
Proof. vm_compute. reflexivity. Qed.

Example process_scenario :
  processLineBreaks DEFAULT_SETTINGS
    (Element 0 (js "p") [] [Text 1 (js "First line.break.Second line")], 2)
    {| docId := js "doc"; sourcePath := js "note.md" |}
  = Some
      (Element 0 (js "p") []
         [Text 2 (js "First line");
          Element 3 (js "span")
            [(js "display", js "block"); (js "height", js "1em");
             (js "lineHeight", js "1em")] [Text 4 [8203%N]];
          Text 5 (js "Second line")], 6).
Proof. vm_compute. reflexivity. Qed.

Example process_leading_token :
  (λ dom, shape <$> childNodes dom.1) <$>
    processLineBreaks DEFAULT_SETTINGS
      (Element 0 (js "p") [] [Text 1 (js ".break.Start")], 2)
      {| docId := js "doc"; sourcePath := js "note.md" |}
  = Some [ZERO_WIDTH; TextFragment (js "Start")].
Proof. vm_compute. reflexivity. Qed.

Example process_adjacent_tokens :
  (λ dom, shape <$> childNodes dom.1) <$>
    processLineBreaks DEFAULT_SETTINGS
      (Element 0 (js "p") [] [Text 1 (js "A.break..break.B")], 2)
      {| docId := js "doc"; sourcePath := js "note.md" |}
  = Some [TextFragment (js "A"); ZERO_WIDTH; ZERO_WIDTH; TextFragment (js "B")].
Proof. vm_compute. reflexivity. Qed.

Example process_nested :
  (λ dom, shape dom.1) <$>
    processLineBreaks
      {| triggerWord := js "//"; breakMethod := js "html-br"; enabled := true |}
      (Element 0 (js "div") []
         [Text 1 (js "one//two");
          Element 2 (js "em") [] [Text 3 (js "three"); Text 4 (js "//")];
          Text 5 (js "four")], 6)
      {| docId := js "doc"; sourcePath := js "note.md" |}
  = Some
      (Markup (js "div") []
         [TextFragment (js "one"); HARD_BREAK; TextFragment (js "two");
          Markup (js "em") [] [TextFragment (js "three"); HARD_BREAK];
          TextFragment (js "four")]).
Proof. vm_compute. reflexivity. Qed.

(** ** Strings *)

Section strings.
Implicit Types s sep : JSString.

Lemma indexOf_nil_r s : JS.indexOf s [] = Some 0.
Proof. by destruct s. Qed.

Lemma indexOf_nil_l sep : sep ≠ [] → JS.indexOf [] sep = None.
Proof.
  intros Hsep. simpl. rewrite bool_decide_eq_false_2; [done|].
  intros H. by apply prefix_nil_inv in H.
Qed.

(** The separator stands at the position [indexOf] returns. *)
Lemma indexOf_Some s sep j :
  JS.indexOf s sep = Some j → sep `prefix_of` drop j s.
Proof.
  revert j. induction s as [|c s IH]; intros j; simpl; case_bool_decide as Hp.
  - by intros [= <-].
  - done.
  - by intros [= <-].
  - destruct (JS.indexOf s sep) as [k|] eqn:Hk; simpl; [|done].
    intros [= <-]. simpl. by apply IH.
Qed.

(** The position [indexOf] returns is the leftmost one. *)
Lemma indexOf_leftmost s sep j i :
  JS.indexOf s sep = Some j → i < j → ¬ sep `prefix_of` drop i s.
Proof.
  revert j i. induction s as [|c s IH]; intros j i; simpl; case_bool_decide as Hp.
  - intros [= <-]. lia.
  - done.
  - intros [= <-]. lia.
  - destruct (JS.indexOf s sep) as [k|] eqn:Hk; simpl; [|done].
    intros [= <-] Hi. destruct i as [|i]; [done|].
    simpl. apply (IH k); [done|lia].
Qed.

Lemma indexOf_None s sep i :
  JS.indexOf s sep = None → ¬ sep `prefix_of` drop i s.
Proof.
  revert i. induction s as [|c s IH]; intros i; simpl; case_bool_decide as Hp; try done.
  - intros _. by rewrite drop_nil.
  - destruct (JS.indexOf s sep) as [k|] eqn:Hk; simpl; [done|].
    intros _. destruct i as [|i]; [done|]. simpl. by apply IH.
Qed.

(** A string is the piece before the leftmost occurrence, the separator,
    and the rest. *)
Lemma indexOf_decompose s sep j :
  JS.indexOf s sep = Some j →
  s = take j s ++ sep ++ drop (j + length sep) s.
Proof.
  intros [k Hk]%indexOf_Some.
  rewrite <-drop_drop, Hk, drop_app_length, <-Hk. by rewrite take_drop.
Qed.

Lemma indexOf_rest_length s sep j :
  sep ≠ [] → JS.indexOf s sep = Some j →
  length (drop (j + length sep) s) < length s.
Proof.
  intros Hsep Hj. pose proof (indexOf_decompose _ _ _ Hj) as Hs.
  apply (f_equal length) in Hs. rewrite !length_app in Hs.
  destruct sep; [done|]. simpl in *. lia.
Qed.

(** Induction along the scan of [split]. *)
Lemma scan_ind sep (Hsep : sep ≠ []) (P : JSString → Prop) :
  (∀ s, JS.indexOf s sep = None → P s) →
  (∀ s j, JS.indexOf s sep = Some j →
          P (drop (j + length sep) s) → P s) →
  ∀ s, P s.
Proof.
  intros Hnone Hsome s.
  remember (length s) as n eqn:Hn. revert s Hn.
  induction n as [n IH] using lt_wf_ind. intros s ->.
  destruct (JS.indexOf s sep) as [j|] eqn:Hj; [|by apply Hnone].
  apply (Hsome s j Hj), (IH _ (indexOf_rest_length s sep j Hsep Hj)).
  done.
Qed.

(** The loop of [split] does not depend on the fuel once there is enough
    of it. *)
Lemma split_loop_fuel sep fuel1 fuel2 s :
  sep ≠ [] → length s ≤ fuel1 → length s ≤ fuel2 →
  JS.split_loop fuel1 s sep = JS.split_loop fuel2 s sep.
Proof.
  intros Hsep. revert fuel2 s.
  induction fuel1 as [|fuel1 IH]; intros fuel2 s H1 H2.
  - destruct s; [|simpl in H1; lia].
    destruct fuel2; simpl; by rewrite bool_decide_eq_false_2
      by (intros H; by apply prefix_nil_inv in H).
  - cbn [JS.split_loop]. destruct (JS.indexOf s sep) as [j|] eqn:Hj.
    + pose proof (indexOf_rest_length s sep j Hsep Hj) as Hlt.
      destruct fuel2 as [|fuel2]; [lia|]. cbn [JS.split_loop]. rewrite Hj.
      f_equal. apply IH; lia.
    + destruct fuel2; cbn [JS.split_loop]; by rewrite Hj.
Qed.

(** The equation of the loop of [split]: [length s] iterations are
    enough for it to run to its end. *)
Lemma split_loop_unfold s sep :
  sep ≠ [] →
  JS.split_loop (length s) s sep
  = match JS.indexOf s sep with
    | Some j =>
        take j s :: JS.split_loop (length (drop (j + length sep) s))
                      (drop (j + length sep) s) sep
    | None => [s]
    end.
Proof.
  intros Hsep. destruct (JS.indexOf s sep) as [j|] eqn:Hj.
  - pose proof (indexOf_rest_length s sep j Hsep Hj) as Hlt.
    destruct (length s) as [|n] eqn:Hn; [lia|].
    cbn [JS.split_loop]. rewrite Hj. f_equal. apply split_loop_fuel; [done|lia..].
  - destruct (length s); cbn [JS.split_loop]; by rewrite Hj.
Qed.

Lemma split_unfold s sep :
  sep ≠ [] →
  JS.split s sep
  = match JS.indexOf s sep with
    | Some j => take j s :: JS.split (drop (j + length sep) s) sep
    | None => [s]
    end.
Proof.
  intros Hsep. destruct sep as [|c sep]; [done|].
  unfold JS.split. by rewrite split_loop_unfold.
Qed.

Lemma occurrences_loop_fuel sep fuel1 fuel2 s :
  sep ≠ [] → length s ≤ fuel1 → length s ≤ fuel2 →
  JS.occurrences_loop fuel1 s sep = JS.occurrences_loop fuel2 s sep.
Proof.
  intros Hsep. revert fuel2 s.
  induction fuel1 as [|fuel1 IH]; intros fuel2 s H1 H2.
  - destruct s; [|simpl in H1; lia].
    destruct fuel2; simpl; by rewrite bool_decide_eq_false_2
      by (intros H; by apply prefix_nil_inv in H).
  - cbn [JS.occurrences_loop]. destruct (JS.indexOf s sep) as [j|] eqn:Hj.
    + pose proof (indexOf_rest_length s sep j Hsep Hj) as Hlt.
      destruct fuel2 as [|fuel2]; [lia|]. cbn [JS.occurrences_loop]. rewrite Hj.
      f_equal. apply IH; lia.
    + destruct fuel2; cbn [JS.occurrences_loop]; by rewrite Hj.
Qed.

Lemma occurrences_unfold s sep :
  sep ≠ [] →
  JS.occurrences s sep
  = match JS.indexOf s sep with
    | Some j => S (JS.occurrences (drop (j + length sep) s) sep)
    | None => 0
    end.
Proof.
  intros Hsep. unfold JS.occurrences.
  destruct (JS.indexOf s sep) as [j|] eqn:Hj.
  - pose proof (indexOf_rest_length s sep j Hsep Hj) as Hlt.
    destruct (length s) as [|n] eqn:Hn; [lia|].
    cbn [JS.occurrences_loop]. rewrite Hj. f_equal.
    apply occurrences_loop_fuel; [done|lia..].
  - destruct (length s); cbn [JS.occurrences_loop]; by rewrite Hj.
Qed.

Lemma split_not_nil s sep : sep ≠ [] → JS.split s sep ≠ [].
Proof. intros Hsep. rewrite split_unfold by done. by destruct (JS.indexOf s sep). Qed.

(** [split] returns one piece more than there are occurrences. *)
Lemma split_length s sep :
  sep ≠ [] → length (JS.split s sep) = S (JS.occurrences s sep).
Proof.
  intros Hsep. induction s as [s Hj|s j Hj IH] using (scan_ind sep Hsep);
    rewrite split_unfold, occurrences_unfold, Hj by done; simpl; congruence.
Qed.

Lemma join_cons p ps sep :
  ps ≠ [] → JS.join (p :: ps) sep = p ++ sep ++ JS.join ps sep.
Proof. by destruct ps. Qed.

(** Joining the pieces with the separator gives the string back. *)
Lemma join_split s sep : JS.join (JS.split s sep) sep = s.
Proof.
  destruct sep as [|c sep'] eqn:Hsep.
  - unfold JS.split. induction s as [|a s IH]; [done|].
    rewrite fmap_cons. destruct s as [|b s]; [done|].
    rewrite join_cons by done. by rewrite IH.
  - rewrite <-Hsep. assert (sep ≠ []) as Hne by (by subst).
    clear Hsep. induction s as [s Hj|s j Hj IH] using (scan_ind sep Hne);
      rewrite split_unfold, Hj by done; [done|].
    rewrite join_cons, IH by (by apply split_not_nil).
    symmetry. by apply indexOf_decompose.
Qed.

Lemma includes_true s sep :
  JS.includes s sep = true ↔ ∃ j, JS.indexOf s sep = Some j.
Proof. unfold JS.includes. by rewrite bool_decide_eq_true. Qed.

Lemma includes_false s sep :
  JS.includes s sep = false ↔ JS.indexOf s sep = None.
Proof.
  unfold JS.includes. rewrite bool_decide_eq_false, <-eq_None_not_Some. done.
Qed.

Lemma includes_occurrences s sep :
  sep ≠ [] → JS.includes s sep = true ↔ 1 ≤ JS.occurrences s sep.
Proof.
  intros Hsep. rewrite includes_true, occurrences_unfold by done.
  destruct (JS.indexOf s sep); split; try lia; eauto.
  by intros [? ?].
Qed.

(** The scan meets an occurrence exactly when the separator stands at some
    position of the string. *)
Lemma occurrences_positive s sep :
  sep ≠ [] →
  1 ≤ JS.occurrences s sep ↔ ∃ k, sep `prefix_of` drop k s.
Proof.
  intros Hsep. rewrite <-includes_occurrences, includes_true by done. split.
  - intros [j Hj]. exists j. by apply indexOf_Some.
  - intros [k Hk]. destruct (JS.indexOf s sep) as [j|] eqn:Hj; [eauto|].
    by apply (indexOf_None _ _ k) in Hj.
Qed.

Lemma split_not_included s sep :
  sep ≠ [] → JS.includes s sep = false → JS.split s sep = [s].
Proof.
  intros Hsep Hinc%includes_false. by rewrite split_unfold, Hinc.
Qed.

Lemma or_else_nil s : JS.or_else s [] = s.
Proof. by destruct s. Qed.

End strings.

(** ** The fragment *)

Section fragment.
Variable settings : LineBreakSettings.

Lemma createLineBreak_shape next :
  shape (createLineBreak settings next).1 = BreakMarker settings.
Proof. unfold BreakMarker, createLineBreak. by repeat case_decide. Qed.

Lemma createLineBreak_isText next :
  isText (createLineBreak settings next).1 = false.
Proof. unfold createLineBreak. by repeat case_decide. Qed.

(** The identities [createLineBreak] uses are the next ones. *)
Lemma createLineBreak_ids next :
  ∃ k, (createLineBreak settings next).2 = next + S k
       ∧ ids (createLineBreak settings next).1 = seq next (S k).
Proof.
  unfold createLineBreak. repeat case_decide; cbn [fst snd];
    first [ by exists 1; split; [lia|] | by exists 0; split; [lia|] ].
Qed.

Lemma buildFragment_from_gen parts k acc :
  foldl (appendPart settings (k + length parts)) acc
    (imap (λ i, pair (k + i)) parts)
  = (acc.1 ++ (fragmentFrom settings parts acc.2).1,
     (fragmentFrom settings parts acc.2).2).
Proof.
  revert k acc. induction parts as [|part rest IH]; intros k [frag next].
  - simpl. by rewrite app_nil_r.
  - rewrite imap_cons. cbn [foldl].
    rewrite (imap_ext _ (λ i, pair (S k + i))) by (intros; simpl; f_equal; lia).
    replace (k + length (part :: rest)) with (S k + length rest) by (simpl; lia).
    rewrite IH. cbn [fragmentFrom]. unfold appendPart, createTextNode.
    cbn [fst snd]. destruct rest as [|part' rest'].
    + rewrite (bool_decide_eq_false_2 (k + 0 < _)) by (simpl; lia).
      case_bool_decide; simpl; by rewrite ?app_nil_r.
    + rewrite (bool_decide_eq_true_2 (k + 0 < _)) by (simpl; lia).
      case_bool_decide; cbn [fst snd];
        destruct (createLineBreak settings _) as [br next2]; cbn [fst snd];
        by rewrite <-?app_assoc.
Qed.

Lemma buildFragment_from parts next :
  buildFragment settings parts next = fragmentFrom settings parts next.
Proof.
  unfold buildFragment.
  etransitivity; [exact (buildFragment_from_gen parts 0 ([], next))|].
  simpl. by destruct (fragmentFrom settings parts next).
Qed.

(** The shapes of the fragment are the replacement sequence. *)
Lemma fragmentFrom_shape parts next :
  shape <$> (fragmentFrom settings parts next).1
  = replacementSequence (BreakMarker settings) parts.
Proof.
  revert next. induction parts as [|part rest IH]; intros next; [done|].
  cbn [fragmentFrom replacementSequence]. destruct rest as [|part' rest'].
  - by case_bool_decide.
  - set (rest := part' :: rest') in *.
    case_bool_decide; cbn [fst snd];
      by rewrite fmap_app, !fmap_cons, createLineBreak_shape, IH.
Qed.

(** The identities of the fragment are the next ones, in order. *)
Lemma fragmentFrom_ids parts next :
  ∃ k, (fragmentFrom settings parts next).2 = next + k
       ∧ (fragmentFrom settings parts next).1 ≫= ids = seq next k.
Proof.
  revert next. induction parts as [|part rest IH]; intros next.
  - exists 0. split; [simpl; lia|done].
  - cbn [fragmentFrom]. destruct rest as [|part' rest'].
    + case_bool_decide; [exists 1|exists 0]; split; simpl; done || lia.
    + set (rest := part' :: rest') in *.
      set (n0 := (if bool_decide (0 < length part)
                  then ([Text next part], S next) else ([], next)).2).
      destruct (createLineBreak_ids n0) as (k1 & Hn & Hbr).
      destruct (IH (createLineBreak settings n0).2) as (k2 & Hn2 & Hmore).
      cbn [fst snd]. rewrite Hn2, bind_app, bind_cons, Hbr, Hmore, Hn.
      rewrite <-seq_app. subst n0. case_bool_decide; cbn [fst snd].
      * exists (S (S k1 + k2)). split; [lia|done].
      * exists (S k1 + k2). split; [lia|done].
Qed.

Lemma buildFragment_ids parts next :
  ∃ k, (buildFragment settings parts next).2 = next + k
       ∧ (buildFragment settings parts next).1 ≫= ids = seq next k.
Proof. rewrite buildFragment_from. apply fragmentFrom_ids. Qed.

Lemma buildFragment_shape parts next :
  shape <$> (buildFragment settings parts next).1
  = replacementSequence (BreakMarker settings) parts.
Proof. rewrite buildFragment_from. apply fragmentFrom_shape. Qed.

Lemma createLineBreak_restore next :
  restore settings (createLineBreak settings next).1 = triggerWord settings.
Proof. unfold createLineBreak. by repeat case_decide. Qed.

Lemma breakMarkers_app l1 l2 :
  breakMarkers (l1 ++ l2) = breakMarkers l1 ++ breakMarkers l2.
Proof. apply filter_app. Qed.

Lemma breakMarkers_createLineBreak next l :
  breakMarkers ((createLineBreak settings next).1 :: l)
  = (createLineBreak settings next).1 :: breakMarkers l.
Proof. apply filter_cons_True, createLineBreak_isText. Qed.

(** As many markers as there are pieces, less one; every marker has the
    shape of the configured break; the texts and the trigger word for
    each marker are the pieces joined by the trigger word; no text node
    is empty. *)
Lemma fragmentFrom_facts parts next :
  let frag := (fragmentFrom settings parts next).1 in
  length (breakMarkers frag) = length parts - 1
  ∧ Forall (λ n, shape n = BreakMarker settings) (breakMarkers frag)
  ∧ frag ≫= restore settings = JS.join parts (triggerWord settings)
  ∧ Forall (λ n, isText n = true → textContent n ≠ []) frag.
Proof.
  revert next. induction parts as [|part rest IH]; intros next.
  - simpl. by split_and!.
  - cbn [fragmentFrom]. destruct rest as [|part' rest'].
    + case_bool_decide as Hlen; cbn [fst snd]; split_and!; try done.
      * by rewrite bind_singleton.
      * repeat constructor. intros _. simpl. by destruct part; [simpl in *; lia|].
      * simpl. destruct part; [done|simpl in *; lia].
    + set (rest := part' :: rest') in *.
      assert (JS.join (part :: rest) (triggerWord settings)
              = part ++ triggerWord settings
                  ++ JS.join rest (triggerWord settings)) as -> by done.
      assert (length (part :: rest) - 1 = S (length rest - 1)) as ->
        by (simpl; lia).
      set (acc1 := if bool_decide (0 < length part)
                   then ([Text next part], S next) else ([], next)).
      destruct (IH (createLineBreak settings acc1.2).2)
        as (Hlen & Hshape & Hjoin & Htext).
      cbn [fst snd] in *.
      assert (breakMarkers acc1.1 = [] ∧ acc1.1 ≫= restore settings = part
              ∧ Forall (λ n, isText n = true → textContent n ≠ []) acc1.1)
        as (Hb & Hr & Ht).
      { subst acc1. case_bool_decide as Hpart; cbn [fst]; split_and!; try done.
        - by rewrite bind_singleton.
        - repeat constructor. intros _. simpl. by destruct part; [simpl in *; lia|].
        - simpl. destruct part; [done|simpl in *; lia]. }
      rewrite breakMarkers_app, breakMarkers_createLineBreak, Hb.
      split_and!.
      * rewrite app_nil_l. cbn [length]. by rewrite Hlen.
      * rewrite app_nil_l. constructor; [apply createLineBreak_shape|done].
      * by rewrite bind_app, bind_cons, Hr, createLineBreak_restore, Hjoin.
      * apply Forall_app. split; [done|]. constructor; [|done].
        by rewrite createLineBreak_isText.
Qed.

End fragment.

(** ** Trees *)

Lemma Node_forest_ind (P : Node → Prop) :
  (∀ i d, P (Text i d)) →
  (∀ i tag st cs, Forall P cs → P (Element i tag st cs)) →
  ∀ n, P n.
Proof.
  intros HT HE. fix IH 1. intros [i d|i tag st cs]; [apply HT|].
  apply HE. induction cs as [|c cs IHcs]; constructor; [apply IH|apply IHcs].
Qed.

Lemma ids_children n : ids n = nodeId n :: (childNodes n ≫= ids).
Proof. by destruct n. Qed.

Lemma nodeId_in_ids n : nodeId n ∈ ids n.
Proof. rewrite ids_children. left. Qed.

Lemma elem_of_forest_ids (cs : list Node) c x :
  c ∈ cs → x ∈ ids c → x ∈ cs ≫= ids.
Proof. intros. apply list_elem_of_bind. eauto. Qed.

Section replaceNode.
Variables (t : NodeId) (frag : list Node).

Lemma replaceNode_notin n : t ∉ ids n → replaceNode t frag n = [n].
Proof.
  induction n as [i d|i tag st cs IH] using Node_forest_ind; simpl; intros Hn.
  - case_decide; [|done]. set_solver.
  - case_decide; [set_solver|]. do 2 f_equal.
    apply not_elem_of_cons in Hn as [_ Hn].
    induction IH as [|c cs Hc _ IHcs]; [done|].
    rewrite bind_cons in Hn. rewrite bind_cons.
    apply not_elem_of_app in Hn as [Hn1 Hn2].
    by rewrite Hc, IHcs.
Qed.

Lemma replaceNode_forest_notin (cs : list Node) :
  t ∉ cs ≫= ids → cs ≫= replaceNode t frag = cs.
Proof.
  induction cs as [|c cs IH]; [done|]. rewrite !bind_cons.
  intros [Hn1 Hn2]%not_elem_of_app. by rewrite replaceNode_notin, IH.
Qed.

(** An identity of the result is one of the node, or one of the fragment
    when the target is in the node. *)
Lemma replaceNode_ids n x :
  x ∈ replaceNode t frag n ≫= ids →
  x ∈ ids n ∨ (x ∈ frag ≫= ids ∧ t ∈ ids n).
Proof.
  revert x. induction n as [i d|i tag st cs IH] using Node_forest_ind;
    intros x; simpl; case_decide as Hi; subst.
  - intros Hx. right. split; [done|left].
  - rewrite bind_singleton. by left.
  - intros Hx. right. split; [done|left].
  - rewrite bind_singleton. simpl.
    intros [->|Hx]%elem_of_cons; [left; left|].
    assert (x ∈ cs ≫= ids ∨ (x ∈ frag ≫= ids ∧ t ∈ cs ≫= ids)) as [?|[? ?]];
      [|left; by right|right; split; [done|by right]].
    clear Hi. induction IH as [|c cs Hc _ IHcs]; [set_solver|].
    rewrite bind_cons, bind_app in Hx. rewrite !bind_cons.
    apply elem_of_app in Hx as [Hx|Hx].
    + destruct (Hc _ Hx) as [?|[? ?]]; set_solver.
    + destruct (IHcs Hx) as [?|[? ?]]; set_solver.
Qed.

Lemma replaceNode_forest_ids (cs : list Node) (x : NodeId) :
  x ∈ (cs ≫= replaceNode t frag) ≫= ids →
  x ∈ cs ≫= ids ∨ (x ∈ frag ≫= ids ∧ t ∈ cs ≫= ids).
Proof.
  induction cs as [|c cs IH]; [set_solver|].
  rewrite !bind_cons, bind_app. intros [Hx|Hx]%elem_of_app.
  - destruct (replaceNode_ids _ _ Hx) as [?|[? ?]]; set_solver.
  - destruct (IH Hx) as [?|[? ?]]; set_solver.
Qed.

Hypothesis frag_NoDup : NoDup (frag ≫= ids).

Lemma replaceNode_forest_NoDup (cs : list Node) :
  Forall (λ n, NoDup (ids n) → (∀ x, x ∈ frag ≫= ids → x ∉ ids n) →
               NoDup (replaceNode t frag n ≫= ids)) cs →
  NoDup (cs ≫= ids) → (∀ x, x ∈ frag ≫= ids → x ∉ cs ≫= ids) →
  NoDup ((cs ≫= replaceNode t frag) ≫= ids).
Proof.
  induction 1 as [|c cs Hc _ IH]; [constructor|].
  rewrite !bind_cons, bind_app. intros (Hc1 & Hdisj & Hcs)%NoDup_app Hfresh.
  apply NoDup_app. split_and!.
  - apply Hc; [done|]. intros x Hx. specialize (Hfresh x Hx). set_solver.
  - intros x Hx1 Hx2.
    destruct (replaceNode_ids _ _ Hx1) as [?|[? ?]],
             (replaceNode_forest_ids _ _ Hx2) as [?|[? ?]];
      try (by eapply Hdisj); eapply Hfresh; eauto; set_solver.
  - apply IH; [done|]. intros x Hx. specialize (Hfresh x Hx). set_solver.
Qed.

Lemma replaceNode_NoDup n :
  NoDup (ids n) → (∀ x, x ∈ frag ≫= ids → x ∉ ids n) →
  NoDup (replaceNode t frag n ≫= ids).
Proof.
  induction n as [i d|i tag st cs IH] using Node_forest_ind;
    simpl; case_decide as Hi.
  - done.
  - intros _ _. rewrite bind_singleton. apply NoDup_singleton.
  - done.
  - intros [Hi' Hcs]%NoDup_cons Hfresh.
    rewrite bind_singleton. simpl. apply NoDup_cons. split.
    + intros [?|[? ?]]%replaceNode_forest_ids; [done|].
      eapply Hfresh; [done|left].
    + apply replaceNode_forest_NoDup; [done..|].
      intros x Hx. specialize (Hfresh x Hx). set_solver.
Qed.

End replaceNode.

(** ** [parentNode] and [replaceChild] *)

Section replaceChild.
Variables (t : NodeId) (frag : list Node).

Lemma replaceChild_Element i tag st cs p :
  replaceChild (Element i tag st cs) p frag t
  = if decide (i = p) then Element i tag st <$> splice cs frag t
    else Element i tag st <$> replaceChildIn p frag t cs.
Proof. reflexivity. Qed.

Lemma head_omap_Some {A B} (f : A → option B) (l : list A) y :
  head (omap f l) = Some y → ∃ x, x ∈ l ∧ f x = Some y.
Proof.
  induction l as [|x l IH]; [done|]. simpl.
  destruct (f x) as [y'|] eqn:Hx.
  - intros [= <-]. exists x. split; [left|done].
  - intros (x' & ? & ?)%IH. exists x'. split; [by right|done].
Qed.

(** The parent the lookup finds is a node of the tree, and the target is
    below the root. *)
Lemma parentNode_Some n p :
  parentNode n t = Some p → p ∈ ids n ∧ t ∈ childNodes n ≫= ids.
Proof.
  revert p. induction n as [i d|i tag st cs IH] using Node_forest_ind;
    intros p; simpl; [done|].
  case_bool_decide as Ht.
  - intros [= <-]. split; [left|].
    apply list_elem_of_fmap in Ht as (c & -> & Hc).
    eapply elem_of_forest_ids; [done|apply nodeId_in_ids].
  - intros (c & Hc & Hp)%head_omap_Some.
    rewrite Forall_forall in IH. destruct (IH c Hc p Hp) as [Hp1 Hp2].
    split.
    + right. by eapply elem_of_forest_ids.
    + eapply elem_of_forest_ids; [done|]. rewrite ids_children. by right.
Qed.

Lemma parentNode_forest_Some (cs : list Node) p :
  head (omap (λ c, parentNode c t) cs) = Some p →
  p ∈ cs ≫= ids ∧ t ∈ cs ≫= ids.
Proof.
  intros (c & Hc & [Hp Ht]%parentNode_Some)%head_omap_Some. split.
  - by eapply elem_of_forest_ids.
  - eapply elem_of_forest_ids; [done|]. rewrite ids_children. by right.
Qed.

(** A node that is not below the root has no parent. *)
Lemma parentNode_None n :
  t ∉ childNodes n ≫= ids → parentNode n t = None.
Proof.
  induction n as [i d|i tag st cs IH] using Node_forest_ind; simpl; [done|].
  intros Ht. rewrite bool_decide_eq_false_2.
  - induction IH as [|c cs Hc _ IHcs]; [done|]. simpl.
    rewrite bind_cons, not_elem_of_app, ids_children, not_elem_of_cons in Ht.
    destruct Ht as [[_ Ht1] Ht2]. rewrite Hc by done. by apply IHcs.
  - intros (c & -> & Hc)%list_elem_of_fmap. apply Ht.
    eapply elem_of_forest_ids; [done|apply nodeId_in_ids].
Qed.

(** A node below the root has a parent. *)
Lemma parentNode_is_Some n :
  t ∈ childNodes n ≫= ids → is_Some (parentNode n t).
Proof.
  induction n as [i d|i tag st cs IH] using Node_forest_ind; simpl.
  - by intros ?%elem_of_nil.
  - intros Ht. case_bool_decide as Hd; [done|].
    induction IH as [|c cs Hc _ IHcs]; [by apply elem_of_nil in Ht|].
    simpl. destruct (parentNode c t) as [p|] eqn:Hp; [done|].
    apply IHcs.
    + rewrite bind_cons, ids_children in Ht.
      apply elem_of_app in Ht as [[->|Ht]%elem_of_cons|Ht]; [|by destruct Hc|done].
      destruct Hd. rewrite fmap_cons. left.
    + intros Hd'. apply Hd. rewrite fmap_cons. by right.
Qed.

Lemma replaceChild_notin n p : p ∉ ids n → replaceChild n p frag t = None.
Proof.
  induction n as [i d|i tag st cs IH] using Node_forest_ind; [done|].
  rewrite replaceChild_Element. simpl. intros [Hi Hp]%not_elem_of_cons.
  case_decide; [done|].
  induction IH as [|c cs Hc _ IHcs]; [done|].
  rewrite bind_cons, not_elem_of_app in Hp. destruct Hp as [Hp1 Hp2].
  simpl. rewrite (Hc Hp1). specialize (IHcs Hp2).
  by destruct (replaceChildIn p frag t cs).
Qed.

Lemma splice_replaceNode (cs : list Node) :
  NoDup (cs ≫= ids) → t ∈ nodeId <$> cs →
  splice cs frag t = Some (cs ≫= replaceNode t frag).
Proof.
  induction cs as [|c cs IH]; [by intros _ ?%elem_of_nil|].
  rewrite bind_cons, fmap_cons. intros (Hc & Hdisj & Hcs)%NoDup_app Ht.
  rewrite bind_cons. cbn [splice]. case_decide as Hid.
  - rewrite replaceNode_forest_notin.
    + destruct c; simpl in *; by rewrite decide_True.
    + apply Hdisj. rewrite <-Hid. apply nodeId_in_ids.
  - apply elem_of_cons in Ht as [Ht|Ht]; [done|].
    rewrite IH by done. rewrite replaceNode_notin; [done|].
    intros Hin. apply (Hdisj _ Hin).
    apply list_elem_of_fmap in Ht as (c' & -> & Hc').
    eapply elem_of_forest_ids; [done|apply nodeId_in_ids].
Qed.

Lemma replaceChildIn_replaceNode (cs : list Node) p :
  Forall (λ n, ∀ p, NoDup (ids n) → parentNode n t = Some p →
               ∃ n', replaceChild n p frag t = Some n'
                     ∧ replaceNode t frag n = [n']) cs →
  NoDup (cs ≫= ids) →
  head (omap (λ c, parentNode c t) cs) = Some p →
  replaceChildIn p frag t cs = Some (cs ≫= replaceNode t frag).
Proof.
  induction 1 as [|c cs Hc _ IH]; [done|].
  rewrite bind_cons. intros (Hnd & Hdisj & Hcs)%NoDup_app.
  rewrite bind_cons. simpl. destruct (parentNode c t) as [p'|] eqn:Hp'; simpl.
  - intros [= ->]. destruct (Hc p Hnd eq_refl) as (c' & -> & ->).
    apply parentNode_Some in Hp' as [_ Ht].
    rewrite replaceNode_forest_notin; [done|].
    apply Hdisj. rewrite ids_children. by right.
  - intros Hp. pose proof (parentNode_forest_Some _ _ Hp) as [Hp1 Hp2].
    rewrite replaceChild_notin by (intros Hin; by apply (Hdisj _ Hin)).
    rewrite (IH Hcs Hp), replaceNode_notin; [done|].
    intros Hin; by apply (Hdisj _ Hin).
Qed.

(** With unique identities, [replaceChild] on the parent [parentNode]
    finds succeeds and replaces exactly the target. *)
Lemma replaceChild_replaceNode n p :
  NoDup (ids n) → parentNode n t = Some p →
  ∃ n', replaceChild n p frag t = Some n' ∧ replaceNode t frag n = [n'].
Proof.
  revert p. induction n as [i d|i tag st cs IH] using Node_forest_ind;
    intros p; [done|].
  intros Hnd Hp. pose proof (parentNode_Some _ _ Hp) as [_ Ht].
  simpl in Hnd, Ht. apply NoDup_cons in Hnd as [Hi Hcs].
  rewrite replaceChild_Element. cbn [replaceNode nodeId].
  rewrite (decide_False (P:=i = t)) by (by intros ->).
  simpl in Hp. case_bool_decide as Hd.
  - injection Hp as <-. rewrite decide_True by done.
    rewrite splice_replaceNode by done. eauto.
  - pose proof (parentNode_forest_Some _ _ Hp) as [Hp1 _].
    rewrite decide_False by (by intros ->).
    rewrite (replaceChildIn_replaceNode cs p) by done. eauto.
Qed.

End replaceChild.

(** ** The loop of [processLineBreaks] on the children of the root *)

Section loop.
Variable settings : LineBreakSettings.
Variables (i : NodeId) (tag : JSString) (st : list (JSString * JSString)).

Lemma seq_fresh (root : Node) next k x :
  Forall (λ j, j < next) (ids root) → x ∈ seq next k → x ∉ ids root.
Proof.
  rewrite Forall_forall. intros Hlt Hx%elem_of_seq Hin.
  specialize (Hlt x Hin). lia.
Qed.

(** A round of the loop keeps the state well formed. *)
Lemma stepBelow_wf cs next textNode :
  wf (Element i tag st cs, next) →
  wf (Element i tag st (stepBelow settings (cs, next) textNode).1,
      (stepBelow settings (cs, next) textNode).2).
Proof.
  intros [Hnd Hlt]. unfold stepBelow. cbn [fst snd] in *.
  destruct (_ && _ && _) eqn:Hcond; [|done].
  apply andb_true_iff in Hcond as [_ Ht%bool_decide_eq_true].
  set (parts := JS.split _ _).
  destruct (buildFragment_ids settings parts next) as (k & Hk & Hids).
  set (t := nodeId textNode) in *.
  set (frag := (buildFragment settings parts next).1) in *.
  assert (i ≠ t) as Hi.
  { intros ->. simpl in Hnd. by apply NoDup_cons in Hnd as [? _]. }
  assert (replaceNode t frag (Element i tag st cs)
          = [Element i tag st (cs ≫= replaceNode t frag)]) as Hrepl.
  { simpl. by rewrite decide_False. }
  split; cbn [fst snd].
  - rewrite <-(bind_singleton ids), <-Hrepl.
    apply replaceNode_NoDup; [rewrite Hids; apply NoDup_seq|done|].
    intros x Hx. rewrite Hids in Hx. by eapply seq_fresh.
  - rewrite Forall_forall. intros x Hx.
    rewrite <-(bind_singleton ids), <-Hrepl in Hx.
    apply replaceNode_ids in Hx as [Hx|[Hx _]].
    + rewrite Forall_forall in Hlt. specialize (Hlt x Hx). lia.
    + rewrite Hids in Hx. apply elem_of_seq in Hx. lia.
Qed.

(** A round of the loop on the tree is a round on the children of the
    root; no DOM call throws. *)
Lemma replaceIfIncluded_stepBelow cs next textNode :
  wf (Element i tag st cs, next) →
  replaceIfIncluded settings (Element i tag st cs, next) textNode
  = Some (Element i tag st (stepBelow settings (cs, next) textNode).1,
          (stepBelow settings (cs, next) textNode).2).
Proof.
  intros [Hnd Hlt]. unfold replaceIfIncluded, stepBelow.
  rewrite or_else_nil. cbn [fst snd] in *.
  destruct (JS.includes _ _); [|done]. cbn [andb].
  unfold replaceTextNodeWithBreaks. cbn [fst snd].
  set (parts := JS.split _ _). set (t := nodeId textNode).
  case_bool_decide as Hlen.
  { by rewrite (bool_decide_eq_false_2 (2 ≤ _)) by lia. }
  rewrite (bool_decide_eq_true_2 (2 ≤ _)) by lia. cbn [andb].
  case_bool_decide as Ht.
  - destruct (parentNode_is_Some t (Element i tag st cs) Ht) as [p Hp].
    rewrite Hp.
    destruct (buildFragment settings parts next) as [frag next'] eqn:Hfrag.
    destruct (replaceChild_replaceNode t frag _ _ Hnd Hp) as (n' & -> & Hn').
    simpl in Hn'. rewrite decide_False in Hn'.
    + by injection Hn' as <-.
    + intros ->. simpl in Hnd. by apply NoDup_cons in Hnd as [? _].
  - by rewrite parentNode_None.
Qed.

(** The second loop of [processLineBreaks] runs to its end, and is the
    loop on the children of the root. *)
Lemma forEachTextNode_stepBelow textNodes cs next :
  wf (Element i tag st cs, next) →
  forEachTextNode settings textNodes (Element i tag st cs, next)
  = Some (Element i tag st (foldl (stepBelow settings) (cs, next) textNodes).1,
          (foldl (stepBelow settings) (cs, next) textNodes).2)
  ∧ wf (Element i tag st (foldl (stepBelow settings) (cs, next) textNodes).1,
        (foldl (stepBelow settings) (cs, next) textNodes).2).
Proof.
  unfold forEachTextNode. revert cs next.
  induction textNodes as [|textNode textNodes IH]; intros cs next Hwf; [done|].
  cbn [foldl mbind option_bind].
  rewrite replaceIfIncluded_stepBelow by done.
  pose proof (stepBelow_wf cs next textNode Hwf) as Hwf'.
  destruct (stepBelow settings (cs, next) textNode) as [cs' next'].
  by apply IH.
Qed.

End loop.

(** ** The two loops together are the substitution in one pass *)

Section one_pass.
Variable settings : LineBreakSettings.

Lemma filter_bind {A B} (P : B → Prop) `{!∀ x, Decision (P x)}
  (f : A → list B) (l : list A) :
  filter P (l ≫= f) = l ≫= (λ x, filter P (f x)).
Proof.
  induction l as [|x l IH]; [done|].
  by rewrite !bind_cons, filter_app, IH.
Qed.

Lemma collectFrom_Text i d :
  collectFrom settings (Text i d)
  = if JS.includes d (triggerWord settings) then [Text i d] else [].
Proof.
  unfold collectFrom. simpl. rewrite filter_cons_True by done.
  rewrite filter_cons. simpl. destruct (JS.includes _ _); by case_decide.
Qed.

Lemma collectFrom_Element i tag st cs :
  collectFrom settings (Element i tag st cs) = cs ≫= collectFrom settings.
Proof.
  unfold collectFrom. rewrite filter_cons_False by done.
  cbn [descendants]. by rewrite !filter_bind.
Qed.

Lemma collectTextNodes_Element i tag st cs :
  collectTextNodes settings (Element i tag st cs)
  = cs ≫= collectFrom settings.
Proof.
  unfold collectTextNodes, treeWalkerShowText. cbn [descendants].
  by rewrite !filter_bind.
Qed.

(** A collected node is a text node of the tree, and includes the trigger
    word. *)
Lemma collectFrom_elem n r :
  r ∈ collectFrom settings n →
  nodeId r ∈ ids n ∧ isText r = true
  ∧ JS.includes (textContent r) (triggerWord settings) = true.
Proof.
  revert r. induction n as [i d|i tag st cs IH] using Node_forest_ind; intros r.
  - rewrite collectFrom_Text. destruct (JS.includes _ _) eqn:Hinc.
    + intros ->%list_elem_of_singleton. split; [left|done].
    + by intros ?%elem_of_nil.
  - rewrite collectFrom_Element.
    intros (c & Hr & Hc)%list_elem_of_bind.
    rewrite Forall_forall in IH. destruct (IH c Hc r Hr) as (? & ? & ?).
    split_and!; [|done..]. right. by eapply elem_of_forest_ids.
Qed.

Lemma collectFrom_forest_elem (cs : list Node) r :
  r ∈ cs ≫= collectFrom settings → nodeId r ∈ cs ≫= ids.
Proof.
  intros (c & Hr%collectFrom_elem & Hc)%list_elem_of_bind.
  eapply elem_of_forest_ids; [done|]. apply Hr.
Qed.

(** The rounds of the loop leave alone the siblings to the right of the
    nodes they work on. *)
Lemma stepBelow_app_r mid post next r :
  nodeId r ∉ post ≫= ids →
  stepBelow settings (mid ++ post, next) r
  = ((stepBelow settings (mid, next) r).1 ++ post,
     (stepBelow settings (mid, next) r).2).
Proof.
  intros Hr. unfold stepBelow. cbn [fst snd].
  rewrite (bool_decide_ext (_ ∈ (mid ++ post) ≫= ids) (nodeId r ∈ mid ≫= ids))
    by (rewrite bind_app, elem_of_app; tauto).
  destruct (_ && _ && _); [|done]. cbn [fst snd].
  by rewrite bind_app, (replaceNode_forest_notin _ _ post).
Qed.

Lemma stepBelow_app_l pre mid next r :
  nodeId r ∉ pre ≫= ids →
  stepBelow settings (pre ++ mid, next) r
  = (pre ++ (stepBelow settings (mid, next) r).1,
     (stepBelow settings (mid, next) r).2).
Proof.
  intros Hr. unfold stepBelow. cbn [fst snd].
  rewrite (bool_decide_ext (_ ∈ (pre ++ mid) ≫= ids) (nodeId r ∈ mid ≫= ids))
    by (rewrite bind_app, elem_of_app; tauto).
  destruct (_ && _ && _); [|done]. cbn [fst snd].
  by rewrite bind_app, (replaceNode_forest_notin _ _ pre).
Qed.

Lemma stepBelow_Element i tag st ds next r :
  nodeId r ≠ i →
  stepBelow settings ([Element i tag st ds], next) r
  = ([Element i tag st (stepBelow settings (ds, next) r).1],
     (stepBelow settings (ds, next) r).2).
Proof.
  intros Hr. unfold stepBelow. cbn [fst snd].
  rewrite (bool_decide_ext (_ ∈ [Element i tag st ds] ≫= ids)
             (nodeId r ∈ ds ≫= ids))
    by (rewrite bind_singleton; simpl; rewrite elem_of_cons; tauto).
  destruct (_ && _ && _); [|done]. cbn [fst snd].
  rewrite bind_singleton. simpl. by rewrite decide_False by done.
Qed.

Lemma foldl_stepBelow_app_r refs mid post next :
  Forall (λ r, nodeId r ∉ post ≫= ids) refs →
  foldl (stepBelow settings) (mid ++ post, next) refs
  = ((foldl (stepBelow settings) (mid, next) refs).1 ++ post,
     (foldl (stepBelow settings) (mid, next) refs).2).
Proof.
  intros Hrefs. revert mid next.
  induction Hrefs as [|r refs Hr _ IH]; intros mid next; [done|].
  cbn [foldl]. rewrite stepBelow_app_r by done.
  destruct (stepBelow settings (mid, next) r) as [mid' next']. apply IH.
Qed.

Lemma foldl_stepBelow_app_l refs pre mid next :
  Forall (λ r, nodeId r ∉ pre ≫= ids) refs →
  foldl (stepBelow settings) (pre ++ mid, next) refs
  = (pre ++ (foldl (stepBelow settings) (mid, next) refs).1,
     (foldl (stepBelow settings) (mid, next) refs).2).
Proof.
  intros Hrefs. revert mid next.
  induction Hrefs as [|r refs Hr _ IH]; intros mid next; [done|].
  cbn [foldl]. rewrite stepBelow_app_l by done.
  destruct (stepBelow settings (mid, next) r) as [mid' next']. apply IH.
Qed.

Lemma foldl_stepBelow_Element refs i tag st ds next :
  Forall (λ r, nodeId r ≠ i) refs →
  foldl (stepBelow settings) ([Element i tag st ds], next) refs
  = ([Element i tag st (foldl (stepBelow settings) (ds, next) refs).1],
     (foldl (stepBelow settings) (ds, next) refs).2).
Proof.
  intros Hrefs. revert ds next.
  induction Hrefs as [|r refs Hr _ IH]; intros ds next; [done|].
  cbn [foldl]. rewrite stepBelow_Element by done.
  destruct (stepBelow settings (ds, next) r) as [ds' next']. apply IH.
Qed.

(** The substitution draws identities upwards from the counter and keeps
    the others. *)
Lemma bindAccum_substitute_ids (cs : list Node) :
  Forall (λ n, ∀ next,
            next ≤ (substitute settings n next).2
            ∧ ∀ x, x ∈ (substitute settings n next).1 ≫= ids →
                   x ∈ ids n ∨ next ≤ x) cs →
  ∀ next,
    next ≤ (bindAccum (substitute settings) cs next).2
    ∧ ∀ x, x ∈ (bindAccum (substitute settings) cs next).1 ≫= ids →
           x ∈ cs ≫= ids ∨ next ≤ x.
Proof.
  induction 1 as [|c cs Hc _ IH]; intros next.
  - split; [done|]. by left.
  - cbn [bindAccum fst snd]. destruct (Hc next) as [Hle1 Hin1].
    destruct (IH (substitute settings c next).2) as [Hle2 Hin2].
    split; [lia|]. intros x. rewrite bind_app, bind_cons, !elem_of_app.
    intros [Hx|Hx].
    + destruct (Hin1 x Hx); [left; by left|by right].
    + destruct (Hin2 x Hx); [left; by right|right; lia].
Qed.

Lemma substitute_ids n next :
  next ≤ (substitute settings n next).2
  ∧ ∀ x, x ∈ (substitute settings n next).1 ≫= ids → x ∈ ids n ∨ next ≤ x.
Proof.
  revert next. induction n as [i d|i tag st cs IH] using Node_forest_ind;
    intros next.
  - cbn [substitute]. destruct (_ && _).
    + destruct (buildFragment_ids settings
                  (JS.split d (triggerWord settings)) next) as (k & -> & ->).
      split; [lia|]. intros x Hx%elem_of_seq. right. lia.
    + cbn [fst snd]. split; [done|]. intros x. rewrite bind_singleton. by left.
  - cbn [substitute fst snd].
    destruct (bindAccum_substitute_ids cs IH next) as [Hle Hin].
    split; [done|]. intros x. rewrite bind_singleton. simpl.
    intros [->|Hx]%elem_of_cons; [left; left|].
    destruct (Hin x Hx); [left; by right|by right].
Qed.

Lemma foldl_stepBelow_forest (cs : list Node) :
  Forall (λ n, ∀ next,
            NoDup (ids n) → Forall (λ j, j < next) (ids n) →
            foldl (stepBelow settings) ([n], next) (collectFrom settings n)
            = substitute settings n next) cs →
  ∀ next,
    NoDup (cs ≫= ids) → Forall (λ j, j < next) (cs ≫= ids) →
    foldl (stepBelow settings) (cs, next) (cs ≫= collectFrom settings)
    = bindAccum (substitute settings) cs next.
Proof.
  induction 1 as [|c cs Hc _ IH]; intros next; [done|].
  rewrite !bind_cons. intros (Hnd & Hdisj & Hcs)%NoDup_app.
  intros [Hlt1 Hlt2]%Forall_app.
  rewrite foldl_app. change (c :: cs) with ([c] ++ cs).
  rewrite foldl_stepBelow_app_r, Hc by
    (done || apply Forall_forall; intros r [Hr _]%collectFrom_elem;
     by apply Hdisj).
  destruct (substitute_ids c next) as [Hle Hin].
  rewrite foldl_stepBelow_app_l.
  - rewrite IH; [done..|]. eapply Forall_impl; [done|]. simpl. lia.
  - apply Forall_forall. intros r Hr%collectFrom_forest_elem Hr'.
    destruct (Hin _ Hr') as [Hr''|Hr''].
    + by apply (Hdisj _ Hr'').
    + rewrite Forall_forall in Hlt2. specialize (Hlt2 _ Hr). lia.
Qed.

Lemma foldl_stepBelow_node n next :
  NoDup (ids n) → Forall (λ j, j < next) (ids n) →
  foldl (stepBelow settings) ([n], next) (collectFrom settings n)
  = substitute settings n next.
Proof.
  revert next. induction n as [i d|i tag st cs IH] using Node_forest_ind;
    intros next Hnd Hlt.
  - rewrite collectFrom_Text. cbn [substitute].
    destruct (JS.includes d _) eqn:Hinc; [|done].
    cbn [foldl]. unfold stepBelow. cbn [textContent fst snd nodeId].
    rewrite Hinc. cbn [andb].
    rewrite (bool_decide_eq_true_2 (i ∈ _)) by (rewrite bind_singleton; left).
    rewrite andb_true_r. case_bool_decide; [|done].
    rewrite bind_singleton. simpl. rewrite decide_True by done.
    by destruct (buildFragment _ _ _).
  - simpl in Hnd, Hlt. apply NoDup_cons in Hnd as [Hi Hcs].
    apply Forall_cons in Hlt as [_ Hlt].
    rewrite collectFrom_Element, foldl_stepBelow_Element.
    + by rewrite foldl_stepBelow_forest.
    + apply Forall_forall. intros r Hr%collectFrom_forest_elem Heq.
      by rewrite Heq in Hr.
Qed.

Lemma foldl_stepBelow_children (cs : list Node) next :
  NoDup (cs ≫= ids) → Forall (λ j, j < next) (cs ≫= ids) →
  foldl (stepBelow settings) (cs, next) (cs ≫= collectFrom settings)
  = bindAccum (substitute settings) cs next.
Proof.
  apply foldl_stepBelow_forest, Forall_forall.
  intros n _. apply foldl_stepBelow_node.
Qed.

(** [processLineBreaks] never throws on a well-formed state, and its
    result is the substitution in one pass. *)
Lemma processLineBreaks_substitute dom context :
  wf dom →
  processLineBreaks settings dom context
  = Some (substituteBelow settings dom).
Proof.
  destruct dom as [[i d|i tag st cs] next]; [done|]. intros Hwf.
  unfold processLineBreaks, substituteBelow. cbn [fst snd].
  rewrite collectTextNodes_Element.
  destruct (forEachTextNode_stepBelow settings i tag st
              (cs ≫= collectFrom settings) cs next Hwf) as [-> _].
  destruct Hwf as [Hnd Hlt]. simpl in Hnd, Hlt.
  apply NoDup_cons in Hnd as [_ Hnd]. apply Forall_cons in Hlt as [_ Hlt].
  by rewrite foldl_stepBelow_children.
Qed.

Lemma substituteBelow_wf dom : wf dom → wf (substituteBelow settings dom).
Proof.
  destruct dom as [[i d|i tag st cs] next]; [done|]. intros Hwf.
  unfold substituteBelow. cbn [fst snd].
  destruct (forEachTextNode_stepBelow settings i tag st
              (cs ≫= collectFrom settings) cs next Hwf) as [_ Hwf'].
  destruct Hwf as [Hnd Hlt]. simpl in Hnd, Hlt.
  apply NoDup_cons in Hnd as [_ Hnd]. apply Forall_cons in Hlt as [_ Hlt].
  by rewrite foldl_stepBelow_children in Hwf'.
Qed.

End one_pass.

(** ** A node and what stands in its place after the call *)

Section becomes.
Variable settings : LineBreakSettings.

Lemma bindAccum_app {A B S} (f : A → S → list B * S) (l1 l2 : list A) (s : S) :
  bindAccum f (l1 ++ l2) s
  = ((bindAccum f l1 s).1 ++ (bindAccum f l2 (bindAccum f l1 s).2).1,
     (bindAccum f l2 (bindAccum f l1 s).2).2).
Proof.
  revert s. induction l1 as [|x l1 IH]; intros s.
  - simpl. by destruct (bindAccum f l2 s).
  - cbn [app bindAccum fst snd]. rewrite IH. cbn [fst snd].
    by rewrite app_assoc.
Qed.

Lemma bindAccum_substitute_le (cs : list Node) next :
  next ≤ (bindAccum (substitute settings) cs next).2.
Proof.
  apply bindAccum_substitute_ids, Forall_forall.
  intros n _. apply substitute_ids.
Qed.

Lemma NoDup_bind_elem {A B} (f : A → list B) (l : list A) x :
  NoDup (l ≫= f) → x ∈ l → NoDup (f x).
Proof.
  intros Hnd (l1 & l2 & ->)%list_elem_of_split.
  rewrite bind_app, bind_cons in Hnd.
  by apply NoDup_app in Hnd as (_ & _ & (? & _ & _)%NoDup_app).
Qed.

(** The identities of a node of the tree are identities of the tree, and
    unique when those of the tree are. *)
Lemma subtree_ids n e :
  e ∈ n :: descendants n →
  (∀ x, x ∈ ids e → x ∈ ids n) ∧ (NoDup (ids n) → NoDup (ids e)).
Proof.
  revert e. induction n as [i d|i tag st cs IH] using Node_forest_ind;
    intros e.
  - by intros ->%list_elem_of_singleton.
  - intros [->|He]%elem_of_cons; [done|]. cbn [descendants] in He.
    apply list_elem_of_bind in He as (c & He & Hc).
    rewrite Forall_forall in IH. destruct (IH c Hc e He) as [Hsub Hnd].
    split.
    + intros x Hx. simpl. right. eapply elem_of_forest_ids; eauto.
    + simpl. intros [_ Hcs]%NoDup_cons. apply Hnd.
      by eapply NoDup_bind_elem.
Qed.

(** Every element of the tree is in the result with its children
    substituted. *)
Lemma substitute_element p tag st cs n next :
  Element p tag st cs ∈ n :: descendants n →
  ∃ m, next ≤ m
       ∧ Element p tag st (bindAccum (substitute settings) cs m).1
         ∈ (substitute settings n next).1 ≫= (λ c, c :: descendants c).
Proof.
  revert next. induction n as [i d|i tag' st' ds IH] using Node_forest_ind;
    intros next.
  - by intros ?%list_elem_of_singleton.
  - intros [[= -> -> -> ->]|He]%elem_of_cons.
    + exists next. split; [done|]. cbn [substitute fst]. rewrite bind_singleton.
      left.
    + cbn [descendants] in He. cbn [substitute fst]. rewrite bind_singleton.
      cbn [descendants].
      assert (∃ m, next ≤ m
                ∧ Element p tag st (bindAccum (substitute settings) cs m).1
                  ∈ (bindAccum (substitute settings) ds next).1
                    ≫= (λ c, c :: descendants c)) as (m & ? & ?);
        [|exists m; split; [done|by right]].
      clear i tag' st'. revert next.
      induction IH as [|c ds Hc _ IHds]; intros next.
      { by apply elem_of_nil in He. }
      rewrite bind_cons in He. cbn [bindAccum fst]. rewrite bind_app.
      apply elem_of_app in He as [He|He].
      * destruct (Hc next He) as (m & ? & ?). exists m.
        split; [done|]. apply elem_of_app. by left.
      * destruct (IHds He (substitute settings c next).2) as (m & ? & ?).
        exists m. pose proof (substitute_ids settings c next) as [? _].
        split; [lia|]. apply elem_of_app. by right.
Qed.

Lemma wf_weaken root next m pre :
  NoDup (ids root) → Forall (λ j, j < next) (ids root) → next ≤ m →
  (∀ x, x ∈ ids pre → x ∈ ids root) → NoDup (ids pre) →
  wf (pre, m).
Proof.
  intros Hnd Hlt Hle Hsub Hnd'. split; [done|]. cbn [fst snd].
  rewrite Forall_forall in Hlt |- *. intros x Hx.
  specialize (Hlt x (Hsub x Hx)). lia.
Qed.

(** What stands in the place of a child of an element of the tree after
    the call is its substitution. *)
Lemma substitute_becomes dom context p tag st pre n post :
  wf dom →
  Element p tag st (pre ++ n :: post) ∈ dom.1 :: descendants dom.1 →
  ∃ m, dom.2 ≤ m
       ∧ becomes settings dom context p tag st pre n post
           (substitute settings n m).1.
Proof.
  intros Hwf He. destruct dom as [root next]. cbn [fst snd] in *.
  pose proof (subtree_ids _ _ He) as [Hsub Hnd].
  destruct Hwf as [Hnd0 Hlt0]. cbn [fst snd] in *. specialize (Hnd Hnd0).
  destruct (substitute_element _ _ _ _ _ next He) as (m1 & Hle & Hin).
  set (f := substitute settings) in *.
  set (r1 := bindAccum f pre m1). set (r2 := f n r1.2).
  set (r3 := bindAccum f post r2.2).
  assert (m1 ≤ r1.2) as Hle1 by apply bindAccum_substitute_le.
  assert (r1.2 ≤ r2.2) as Hle2 by apply substitute_ids.
  exists r1.2. split; [lia|].
  exists (substituteBelow settings (root, next)).1,
    (substituteBelow settings (root, next)).2, m1, r1.1, r1.2, r2.2, r3.1, r3.2.
  simpl in Hnd. apply NoDup_cons in Hnd as [Hp Hnd].
  rewrite bind_app, bind_cons in Hnd, Hp.
  apply NoDup_app in Hnd as (Hnd1 & Hd1 & (Hnd2 & Hd2 & Hnd3)%NoDup_app).
  split_and!.
  - rewrite processLineBreaks_substitute by done.
    by destruct (substituteBelow settings (root, next)).
  - rewrite (bindAccum_app f pre (n :: post) m1) in Hin.
    cbn [bindAccum fst snd] in Hin. fold r1 r2 r3 in Hin.
    destruct root as [i d|i tag' st' ds].
    { by apply list_elem_of_singleton in He. }
    unfold substituteBelow. cbn [fst snd]. subst f.
    cbn [substitute fst] in Hin. by rewrite bind_singleton in Hin.
  - rewrite processLineBreaks_substitute; [done|].
    apply (wf_weaken root next); [done..|lia| |].
    + intros x Hx. apply Hsub. simpl in *. rewrite bind_app.
      set_solver.
    + simpl. apply NoDup_cons. split; [set_solver|done].
  - rewrite processLineBreaks_substitute; [done|].
    apply (wf_weaken root next); [done..|lia| |].
    + intros x Hx. apply Hsub. simpl in *. rewrite bind_app, bind_cons.
      set_solver.
    + simpl. apply NoDup_cons. split; [set_solver|done].
Qed.

End becomes.

(** * Text nodes, replaced and kept *)

Section leaves.
Variable settings : LineBreakSettings.
Variable context : MarkdownPostProcessorContext.

Lemma substitute_Text_replaced i text m :
  JS.includes text (triggerWord settings) = true →
  2 ≤ length (JS.split text (triggerWord settings)) →
  substitute settings (Text i text) m
  = fragmentFrom settings (JS.split text (triggerWord settings)) m.
Proof.
  intros Hinc Hlen. cbn [substitute]. rewrite Hinc.
  by rewrite bool_decide_eq_true_2, buildFragment_from.
Qed.

Lemma substitute_Text_kept i text m :
  JS.includes text (triggerWord settings) = false
  ∨ length (JS.split text (triggerWord settings)) ≤ 1 →
  substitute settings (Text i text) m = ([Text i text], m).
Proof.
  intros [Hinc|Hlen]; cbn [substitute].
  - by rewrite Hinc.
  - rewrite (bool_decide_eq_false_2 (2 ≤ _)) by lia. by rewrite andb_false_r.
Qed.

Lemma indexOf_prefix s sep : sep `prefix_of` s → JS.indexOf s sep = Some 0.
Proof. intros Hp. destruct s; simpl; by rewrite bool_decide_eq_true_2. Qed.

Lemma split_self sep : sep ≠ [] → JS.split sep sep = [[]; []].
Proof.
  intros Hsep. rewrite split_unfold, indexOf_prefix by done.
  cbn [Nat.add]. rewrite drop_all, take_0.
  by rewrite split_unfold, indexOf_nil_l by done.
Qed.

Lemma includes_self sep : JS.includes sep sep = true.
Proof. apply includes_true. exists 0. by apply indexOf_prefix. Qed.

Lemma includes_nil s : JS.includes s [] = true.
Proof. apply includes_true. exists 0. apply indexOf_nil_r. Qed.

(** The replacement sequence of the code units of a text is the text
    fragments of the code units with a marker between neighbours. *)
Lemma replacementSequence_units marker (text : JSString) :
  replacementSequence marker ((λ c, [c]) <$> text)
  = intersperse marker ((λ c, TextFragment [c]) <$> text).
Proof.
  induction text as [|a text IH]; [done|].
  rewrite !fmap_cons. cbn [replacementSequence].
  rewrite bool_decide_eq_true_2 by (simpl; lia).
  destruct text as [|b text]; [done|].
  rewrite fmap_cons in IH |- *. rewrite IH. by rewrite !fmap_cons.
Qed.

Lemma filter_nil_Forall {A} (P : A → Prop) `{!∀ x, Decision (P x)} (l : list A) :
  Forall (λ x, ¬ P x) l → filter P l = [].
Proof.
  induction 1 as [|x l Hx _ IH]; [done|]. by rewrite filter_cons_False.
Qed.

(** A node none of whose text nodes is collected is its own
    substitution. *)
Lemma substitute_untouched n m :
  collectFrom settings n = [] → substitute settings n m = ([n], m).
Proof.
  revert m. induction n as [i d|i tag st cs IH] using Node_forest_ind;
    intros m.
  - rewrite collectFrom_Text. destruct (JS.includes d _) eqn:Hinc; [done|].
    intros _. apply substitute_Text_kept. by left.
  - rewrite collectFrom_Element. intros Hnil. cbn [substitute].
    assert (bindAccum (substitute settings) cs m = (cs, m)) as ->; [|done].
    revert m. induction IH as [|c cs Hc _ IHcs]; intros m; [done|].
    rewrite bind_cons in Hnil. apply app_eq_nil in Hnil as [Hn1 Hn2].
    cbn [bindAccum]. rewrite (Hc m Hn1). cbn [fst snd]. by rewrite (IHcs Hn2).
Qed.

(** The substitution keeps the number of children where no text child
    includes the trigger word. *)
Lemma bindAccum_substitute_length (cs : list Node) m :
  Forall (λ c, isText c = true →
               JS.includes (textContent c) (triggerWord settings) = false) cs →
  length (bindAccum (substitute settings) cs m).1 = length cs.
Proof.
  intros Hcs. revert m. induction Hcs as [|c cs Hc _ IH]; intros m; [done|].
  cbn [bindAccum fst]. rewrite length_app, IH. cbn [length]. f_equal.
  destruct c as [i d|i tag st ds]; [|done].
  rewrite substitute_Text_kept; [done|]. left. by apply Hc.
Qed.

(** The loop of [processLineBreaks] never throws, whatever nodes it is
    run on. *)
Lemma forEachTextNode_total textNodes dom :
  wf dom →
  ∃ dom', forEachTextNode settings textNodes dom = Some dom' ∧ wf dom'.
Proof.
  destruct dom as [[i d|i tag st cs] next]; intros Hwf.
  - exists (Text i d, next). split; [|done]. unfold forEachTextNode.
    induction textNodes as [|textNode textNodes IH]; [done|].
    cbn [foldl mbind option_bind].
    assert (replaceIfIncluded settings (Text i d, next) textNode
            = Some (Text i d, next)) as ->; [|done].
    unfold replaceIfIncluded, replaceTextNodeWithBreaks.
    destruct (JS.includes _ _); [|done]. by case_bool_decide.
  - destruct (forEachTextNode_stepBelow settings i tag st textNodes cs next Hwf)
      as [-> Hwf']. eauto.
Qed.

End leaves.

(** * The properties of the specification *)

(** C1.  A text node with N ≥ 1 occurrences of the trigger word, found by
    the left-to-right scan that resumes after each occurrence, is replaced
    by a sequence with exactly N line-break elements, each of the shape of
    the configured break; the data of the text nodes of the sequence, with
    the trigger word for each line-break element, concatenate in order to
    the original text. *)
Theorem replacement_round_trip settings context dom p tag st pre i text post :
  wf dom →
  Element p tag st (pre ++ Text i text :: post) ∈ dom.1 :: descendants dom.1 →
  triggerWord settings ≠ [] →
  1 ≤ JS.occurrences text (triggerWord settings) →
  ∃ fragment,
    becomes settings dom context p tag st pre (Text i text) post fragment
    ∧ length (breakMarkers fragment)
      = JS.occurrences text (triggerWord settings)
    ∧ Forall (λ n, shape n = BreakMarker settings) (breakMarkers fragment)
    ∧ fragment ≫= restore settings = text.
Proof.
  intros Hwf He Htok Hocc.
  destruct (substitute_becomes settings dom context p tag st pre (Text i text)
              post Hwf He) as (m & _ & Hbecomes).
  exists (substitute settings (Text i text) m).1. split; [done|].
  pose proof (split_length text _ Htok) as Hlen.
  rewrite substitute_Text_replaced
    by (by apply includes_occurrences || lia).
  destruct (fragmentFrom_facts settings
              (JS.split text (triggerWord settings)) m) as (Hn & Hshape & Hjoin & _).
  split_and!; [|done|].
  - rewrite Hn, Hlen. lia.
  - by rewrite Hjoin, join_split.
Qed.

Lemma replacement_round_trip_witness :
  let settings := DEFAULT_SETTINGS in
  let context := {| docId := js "doc"; sourcePath := js "note.md" |} in
  let text := js "A.break..break.B" in
  let dom : Dom := (Element 0 (js "p") [] [Text 1 text], 2) in
  wf dom
  ∧ 1 ≤ JS.occurrences text (triggerWord settings)
  ∧ ∃ fragment,
      becomes settings dom context 0 (js "p") [] [] (Text 1 text) [] fragment
      ∧ length (breakMarkers fragment)
        = JS.occurrences text (triggerWord settings)
      ∧ Forall (λ n, shape n = BreakMarker settings) (breakMarkers fragment)
      ∧ fragment ≫= restore settings = text.
Proof.
  intros settings context text dom.
  assert (wf dom) as Hwf by by_decision.
  assert (1 ≤ JS.occurrences text (triggerWord settings)) as Hocc
    by (vm_compute; lia).
  split_and!; [done..|].
  apply (replacement_round_trip settings context dom 0 (js "p") [] [] 1 text []);
    [done|left|done|done].
Defined.

(** C2.  With [enabled] false both post processors registered by [onload]
    return at once: the tree and the identity counter are those they were
    given, so no node was collected, created or replaced. *)
Theorem disabled_is_noop settings context dom :
  enabled settings = false →
  postProcessor settings dom context = Some dom
  ∧ livePreviewPostProcessor settings dom context = Some dom.
Proof.
  intros Hoff. unfold postProcessor, livePreviewPostProcessor.
  by rewrite Hoff.
Qed.

Lemma disabled_is_noop_witness :
  let settings :=
    {| triggerWord := js ".break."; breakMethod := js "zero-width";
       enabled := false |} in
  let context := {| docId := js "doc"; sourcePath := js "note.md" |} in
  let dom : Dom := (Element 0 (js "p") [] [Text 1 (js "A.break.B")], 2) in
  enabled settings = false
  ∧ postProcessor settings dom context = Some dom
  ∧ livePreviewPostProcessor settings dom context = Some dom.
Proof.
  intros settings context dom. split; [reflexivity|].
  apply (disabled_is_noop settings context dom). reflexivity.
Defined.

(** ** Settings *)

Lemma loadSettings_no_data : loadSettings None = DEFAULT_SETTINGS.
Proof. reflexivity. Qed.

(** A trigger word that is absent from the stored object resolves to the
    default. *)
Lemma loadSettings_absent_trigger stored :
  storedTriggerWord stored = None →
  triggerWord (loadSettings (Some stored)) = js ".break.".
Proof. intros H. simpl. by rewrite H. Qed.

(** A trigger word that is present in the stored object is taken as it
    is. *)
Lemma loadSettings_stored_trigger stored word :
  storedTriggerWord stored = Some word →
  triggerWord (loadSettings (Some stored)) = word.
Proof. intros H. simpl. by rewrite H. Qed.

(** The settings tab never sets an empty trigger word. *)
Lemma onChangeTriggerWord_not_empty settings value :
  triggerWord (onChangeTriggerWord settings value) ≠ [].
Proof. by destruct value. Qed.

(** What the settings tab saved loads back with a trigger word that is not
    empty. *)
Lemma load_saved_not_empty settings value :
  triggerWord
    (loadSettings (Some (saveSettings (onChangeTriggerWord settings value))))
  ≠ [].
Proof. by destruct value. Qed.

(** C3.  [loadSettings] on a stored object whose trigger word is the empty
    string resolves to the empty trigger word, not to the default, whereas
    the settings tab replaces an empty value by the default. *)
Theorem loadSettings_keeps_empty_trigger :
  triggerWord
    (loadSettings
       (Some {| storedTriggerWord := Some [];
                storedBreakMethod := None;
                storedEnabled := None |})) = []
  ∧ triggerWord (onChangeTriggerWord DEFAULT_SETTINGS []) = js ".break.".
Proof. split; reflexivity. Qed.

(** C7.  A break method that is none of the three known ones gives the
    line-break element without content, the one of ['html-br']; the shapes
    of the three known methods are those of the data model and differ
    from one another. *)
Theorem unrecognized_style_is_hard_break settings next :
  breakMethod settings ≠ js "zero-width" →
  breakMethod settings ≠ js "html-br" →
  breakMethod settings ≠ js "css-break" →
  createLineBreak settings next = (Element next (js "br") [] [], S next)
  ∧ BreakMarker settings = HARD_BREAK
  ∧ ∀ zw br css,
      breakMethod zw = js "zero-width" →
      breakMethod br = js "html-br" →
      breakMethod css = js "css-break" →
      BreakMarker zw = ZERO_WIDTH ∧ BreakMarker br = HARD_BREAK
      ∧ BreakMarker css = CSS_BLOCK
      ∧ BreakMarker zw ≠ BreakMarker br ∧ BreakMarker zw ≠ BreakMarker css
      ∧ BreakMarker br ≠ BreakMarker css.
Proof.
  intros H1 H2 H3. split_and!.
  - unfold createLineBreak. by rewrite !decide_False by done.
  - unfold BreakMarker, createLineBreak. by rewrite !decide_False by done.
  - intros zw br css Hzw Hbr Hcss.
    assert (BreakMarker zw = ZERO_WIDTH) as ->
      by (unfold BreakMarker, createLineBreak; by rewrite Hzw).
    assert (BreakMarker br = HARD_BREAK) as ->
      by (unfold BreakMarker, createLineBreak; by rewrite Hbr).
    assert (BreakMarker css = CSS_BLOCK) as ->
      by (unfold BreakMarker, createLineBreak; by rewrite Hcss).
    by split_and!.
Qed.

Lemma unrecognized_style_is_hard_break_witness :
  let settings :=
    {| triggerWord := js ".break."; breakMethod := js "double-space";
       enabled := true |} in
  breakMethod settings ≠ js "zero-width"
  ∧ breakMethod settings ≠ js "html-br"
  ∧ breakMethod settings ≠ js "css-break"
  ∧ createLineBreak settings 5 = (Element 5 (js "br") [] [], 6)
  ∧ BreakMarker settings = HARD_BREAK.
Proof.
  intros settings.
  assert (breakMethod settings ≠ js "zero-width") as H1 by (by vm_compute).
  assert (breakMethod settings ≠ js "html-br") as H2 by (by vm_compute).
  assert (breakMethod settings ≠ js "css-break") as H3 by (by vm_compute).
  split_and!; [done..| |];
    apply (unrecognized_style_is_hard_break settings 5); done.
Defined.

(** C9.  [processLivePreview] is [processLineBreaks]: on every state,
    settings and context the two return the same result, and so do the two
    post processors registered by [onload]. *)
Theorem live_preview_is_primary settings context dom :
  processLivePreview settings dom context
  = processLineBreaks settings dom context
  ∧ livePreviewPostProcessor settings dom context
    = postProcessor settings dom context.
Proof. split; reflexivity. Qed.

(** C4.  A text node whose data is exactly the trigger word is replaced by
    one line-break element and no text node; and whatever the pieces are,
    no text node of a fragment is empty. *)
Theorem exact_token_single_marker settings context dom p tag st pre i post :
  wf dom →
  Element p tag st (pre ++ Text i (triggerWord settings) :: post)
    ∈ dom.1 :: descendants dom.1 →
  triggerWord settings ≠ [] →
  (∃ marker,
     becomes settings dom context p tag st pre
       (Text i (triggerWord settings)) post [marker]
     ∧ isText marker = false
     ∧ shape marker = BreakMarker settings)
  ∧ ∀ parts next,
      Forall (λ n, isText n = true → textContent n ≠ [])
        (buildFragment settings parts next).1.
Proof.
  intros Hwf He Htok. split.
  - destruct (substitute_becomes settings dom context p tag st pre _ post
                Hwf He) as (m & _ & Hbecomes).
    rewrite substitute_Text_replaced in Hbecomes
      by (apply includes_self || rewrite split_self by done; simpl; lia).
    rewrite split_self in Hbecomes by done. cbn in Hbecomes.
    eexists. split; [exact Hbecomes|]. split.
    + apply createLineBreak_isText.
    + apply createLineBreak_shape.
  - intros parts next. rewrite buildFragment_from.
    apply fragmentFrom_facts.
Qed.

Lemma exact_token_single_marker_witness :
  let settings := DEFAULT_SETTINGS in
  let context := {| docId := js "doc"; sourcePath := js "note.md" |} in
  let dom : Dom :=
    (Element 0 (js "p") [] [Text 1 (js "above"); Text 2 (js ".break.")], 3) in
  wf dom
  ∧ ∃ marker,
      becomes settings dom context 0 (js "p") [] [Text 1 (js "above")]
        (Text 2 (triggerWord settings)) [] [marker]
      ∧ isText marker = false
      ∧ shape marker = BreakMarker settings.
Proof.
  intros settings context dom.
  assert (wf dom) as Hwf by by_decision.
  split; [done|].
  apply (exact_token_single_marker settings context dom 0 (js "p") []
           [Text 1 (js "above")] 2 []); [done|left|done].
Defined.

(** C5, as stated, fails: with the default trigger word, [A = ".break"] and
    [B = "x"] are not empty and include no trigger word, yet in
    [A + ".break." + B = ".break.break.x"] the leftmost occurrence starts
    at position 0, inside [A], and the text node is replaced by a marker
    and the text ["break.x"]. *)
Lemma text_token_text_counterexample :
  let settings := DEFAULT_SETTINGS in
  let context := {| docId := js "doc"; sourcePath := js "note.md" |} in
  let A := js ".break" in
  let B := js "x" in
  let dom : Dom :=
    (Element 0 (js "p") [] [Text 1 (A ++ triggerWord settings ++ B)], 2) in
  wf dom ∧ A ≠ [] ∧ B ≠ []
  ∧ JS.includes A (triggerWord settings) = false
  ∧ JS.includes B (triggerWord settings) = false
  ∧ ∃ root' next',
      processLineBreaks settings dom context = Some (root', next')
      ∧ shape <$> childNodes root'
        = [BreakMarker settings; TextFragment (js "break.x")]
      ∧ shape <$> childNodes root'
        ≠ [TextFragment A; BreakMarker settings; TextFragment B].
Proof.
  intros settings context A B dom. split_and!.
  - by_decision.
  - done.
  - done.
  - vm_compute. reflexivity.
  - vm_compute. reflexivity.
  - eexists _, _. split; [vm_compute; reflexivity|]. split.
    + vm_compute. reflexivity.
    + vm_compute. discriminate.
Qed.

(** C5, amended.  A text node with the data [A + token + B], where [A] and
    [B] are not empty, the leftmost occurrence of the trigger word in the
    data is the one after [A], and [B] includes no trigger word, is
    replaced by the text [A], one marker and the text [B], in this
    order. *)
Theorem text_token_text settings context dom p tag st pre i A B post :
  wf dom →
  Element p tag st (pre ++ Text i (A ++ triggerWord settings ++ B) :: post)
    ∈ dom.1 :: descendants dom.1 →
  A ≠ [] → B ≠ [] →
  JS.indexOf (A ++ triggerWord settings ++ B) (triggerWord settings)
  = Some (length A) →
  JS.includes B (triggerWord settings) = false →
  ∃ fragment,
    becomes settings dom context p tag st pre
      (Text i (A ++ triggerWord settings ++ B)) post fragment
    ∧ shape <$> fragment
      = [TextFragment A; BreakMarker settings; TextFragment B].
Proof.
  intros Hwf He HA HB Hidx HincB.
  assert (triggerWord settings ≠ []) as Htok.
  { intros Hnil. rewrite Hnil, indexOf_nil_r in Hidx.
    injection Hidx as Hlen. by destruct A. }
  assert (JS.split (A ++ triggerWord settings ++ B) (triggerWord settings)
          = [A; B]) as Hsplit.
  { rewrite split_unfold, Hidx by done.
    rewrite take_app_length, <-drop_drop, drop_app_length, drop_app_length.
    by rewrite split_not_included. }
  destruct (substitute_becomes settings dom context p tag st pre _ post
              Hwf He) as (m & _ & Hbecomes).
  eexists. split; [exact Hbecomes|].
  rewrite substitute_Text_replaced
    by ((apply includes_true; eauto) || (rewrite Hsplit; simpl; lia)).
  rewrite Hsplit, fragmentFrom_shape. cbn [replacementSequence].
  rewrite !bool_decide_eq_true_2; [done|destruct B|destruct A]; simpl; done || lia.
Qed.

Lemma text_token_text_witness :
  let settings := DEFAULT_SETTINGS in
  let context := {| docId := js "doc"; sourcePath := js "note.md" |} in
  let A := js "First line" in
  let B := js "Second line" in
  let dom : Dom :=
    (Element 0 (js "p") [] [Text 1 (A ++ triggerWord settings ++ B)], 2) in
  wf dom ∧ A ≠ [] ∧ B ≠ []
  ∧ JS.indexOf (A ++ triggerWord settings ++ B) (triggerWord settings)
    = Some (length A)
  ∧ JS.includes B (triggerWord settings) = false
  ∧ ∃ fragment,
      becomes settings dom context 0 (js "p") [] []
        (Text 1 (A ++ triggerWord settings ++ B)) [] fragment
      ∧ shape <$> fragment
        = [TextFragment A; BreakMarker settings; TextFragment B].
Proof.
  intros settings context A B dom.
  assert (wf dom) as Hwf by by_decision.
  assert (A ≠ []) as HA by done.
  assert (B ≠ []) as HB by done.
  assert (JS.indexOf (A ++ triggerWord settings ++ B) (triggerWord settings)
          = Some (length A)) as Hidx by (vm_compute; reflexivity).
  assert (JS.includes B (triggerWord settings) = false) as Hinc
    by (vm_compute; reflexivity).
  split_and!; [done..|].
  apply (text_token_text settings context dom 0 (js "p") [] [] 1 A B []);
    [done|left|done..].
Defined.

(** C6, as stated, fails: the text ["x"] includes no trigger word, but its
    sibling ["a.break.b"] is replaced by three nodes, so the number of
    children of their parent goes from 2 to 4. *)
Lemma child_count_counterexample :
  let settings := DEFAULT_SETTINGS in
  let context := {| docId := js "doc"; sourcePath := js "note.md" |} in
  let root :=
    Element 0 (js "p") [] [Text 1 (js "x"); Text 2 (js "a.break.b")] in
  let dom : Dom := (root, 3) in
  wf dom
  ∧ JS.includes (js "x") (triggerWord settings) = false
  ∧ ∃ root' next',
      processLineBreaks settings dom context = Some (root', next')
      ∧ length (childNodes root) = 2
      ∧ length (childNodes root') = 4.
Proof.
  intros settings context root dom. split_and!.
  - by_decision.
  - vm_compute. reflexivity.
  - eexists _, _. split; [vm_compute; reflexivity|]. split; reflexivity.
Qed.

(** C6, amended.  A child of an element of the tree (a text node or a whole
    subtree) none of whose text nodes includes the trigger word stands in
    its place after the call, the same node with the same identities and
    data, and what the call makes of its siblings is around it; and an
    element none of whose text children includes the trigger word has as
    many children after the call as before. *)
Theorem untouched_outside_replaced_leaves settings context dom p tag st
    pre n post :
  wf dom →
  Element p tag st (pre ++ n :: post) ∈ dom.1 :: descendants dom.1 →
  Forall (λ t, JS.includes (textContent t) (triggerWord settings) = false)
    (textFragments (n :: descendants n)) →
  becomes settings dom context p tag st pre n post [n]
  ∧ (Forall (λ c, isText c = true →
                  JS.includes (textContent c) (triggerWord settings) = false)
       (pre ++ post) →
     ∃ root' next' cs',
       processLineBreaks settings dom context = Some (root', next')
       ∧ Element p tag st cs' ∈ root' :: descendants root'
       ∧ length cs' = length (pre ++ n :: post)).
Proof.
  intros Hwf He Hn.
  assert (collectFrom settings n = []) as Hnil.
  { unfold collectFrom. apply filter_nil_Forall.
    eapply Forall_impl; [exact Hn|]. simpl. intros t ->. done. }
  split.
  - destruct (substitute_becomes settings dom context p tag st pre n post
                Hwf He) as (m & _ & Hbecomes).
    by rewrite substitute_untouched in Hbecomes.
  - intros Hsiblings.
    destruct dom as [root next]. cbn [fst snd] in He.
    destruct (substitute_element settings _ _ _ _ _ next He) as (m & _ & Hin).
    exists (substituteBelow settings (root, next)).1,
      (substituteBelow settings (root, next)).2,
      (bindAccum (substitute settings) (pre ++ n :: post) m).1. split_and!.
    + rewrite processLineBreaks_substitute by done.
      by destruct (substituteBelow settings (root, next)).
    + destruct root as [i d|i tag' st' ds].
      { by apply list_elem_of_singleton in He. }
      unfold substituteBelow. cbn [fst snd].
      cbn [substitute fst] in Hin. rewrite bind_singleton in Hin. exact Hin.
    + apply bindAccum_substitute_length.
      apply Forall_app in Hsiblings as [Hpre Hpost].
      apply Forall_app. split; [done|]. constructor; [|done].
      intros Ht. destruct n as [i d|]; [|done].
      unfold textFragments in Hn. cbn [descendants] in Hn.
      rewrite filter_cons_True in Hn by done. by inversion Hn.
Qed.

Lemma untouched_outside_replaced_leaves_witness :
  let settings := DEFAULT_SETTINGS in
  let context := {| docId := js "doc"; sourcePath := js "note.md" |} in
  let dom : Dom :=
    (Element 0 (js "p") []
       [Text 1 (js "plain text");
        Element 2 (js "em") [] [Text 3 (js "a.break.b")]], 4) in
  wf dom
  ∧ Forall (λ t, JS.includes (textContent t) (triggerWord settings) = false)
      (textFragments
         (Text 1 (js "plain text") :: descendants (Text 1 (js "plain text"))))
  ∧ becomes settings dom context 0 (js "p") [] [] (Text 1 (js "plain text"))
      [Element 2 (js "em") [] [Text 3 (js "a.break.b")]]
      [Text 1 (js "plain text")]
  ∧ ∃ root' next' cs',
      processLineBreaks settings dom context = Some (root', next')
      ∧ Element 0 (js "p") [] cs' ∈ root' :: descendants root'
      ∧ length cs' = 2.
Proof.
  intros settings context dom.
  assert (wf dom) as Hwf by by_decision.
  assert (Forall
            (λ t, JS.includes (textContent t) (triggerWord settings) = false)
            (textFragments
               (Text 1 (js "plain text")
                  :: descendants (Text 1 (js "plain text"))))) as Hn
    by (repeat constructor).
  destruct (untouched_outside_replaced_leaves settings context dom 0 (js "p")
              [] [] (Text 1 (js "plain text"))
              [Element 2 (js "em") [] [Text 3 (js "a.break.b")]]
              Hwf ltac:(left) Hn) as [Hkept Hcount].
  split_and!; [done..|]. apply Hcount. by repeat constructor.
Defined.

(** C8.  No DOM call of [processLineBreaks] throws.  When a node of the
    list the second loop runs over has no parent at its turn, or its text
    splits into fewer than two pieces, its round changes nothing, neither
    the tree nor the identity counter, and the loop goes on with the nodes
    after it: the result is the one of the loop without that node. *)
Theorem fault_isolation settings context dom before textNode after dom1 :
  wf dom →
  forEachTextNode settings before dom = Some dom1 →
  parentNode dom1.1 (nodeId textNode) = None
  ∨ length (JS.split (textContent textNode) (triggerWord settings)) ≤ 1 →
  replaceIfIncluded settings dom1 textNode = Some dom1
  ∧ forEachTextNode settings (before ++ textNode :: after) dom
    = forEachTextNode settings (before ++ after) dom
  ∧ (∃ dom2,
       forEachTextNode settings (before ++ textNode :: after) dom = Some dom2)
  ∧ ∃ dom', processLineBreaks settings dom context = Some dom'.
Proof.
  intros Hwf Hbefore Hskip.
  assert (replaceIfIncluded settings dom1 textNode = Some dom1) as Hround.
  { unfold replaceIfIncluded, replaceTextNodeWithBreaks. rewrite or_else_nil.
    destruct (JS.includes _ _); [|done].
    destruct Hskip as [Hparent|Hlen].
    - rewrite Hparent. by case_bool_decide.
    - by rewrite bool_decide_eq_true_2. }
  assert (forEachTextNode settings (before ++ textNode :: after) dom
          = forEachTextNode settings (before ++ after) dom) as Hsame.
  { unfold forEachTextNode in *. rewrite !foldl_app, Hbefore.
    cbn [foldl mbind option_bind]. by rewrite Hround. }
  split_and!; [done..| |].
  - destruct (forEachTextNode_total settings (before ++ textNode :: after)
                dom Hwf) as (dom2 & ? & _). eauto.
  - destruct (forEachTextNode_total settings
                (collectTextNodes settings dom.1) dom Hwf) as (dom' & ? & _).
    eauto.
Qed.

Lemma fault_isolation_witness :
  let settings := DEFAULT_SETTINGS in
  let context := {| docId := js "doc"; sourcePath := js "note.md" |} in
  let dom : Dom :=
    (Element 0 (js "p") []
       [Text 1 (js "a.break.b"); Text 2 (js "c.break.d")], 3) in
  let before := [Text 1 (js "a.break.b")] in
  let detached := Text 9 (js "x.break.y") in
  let after := [Text 2 (js "c.break.d")] in
  let dom1 : Dom :=
    (Element 0 (js "p") []
       [Text 3 (js "a");
        Element 4 (js "span")
          [(js "display", js "block"); (js "height", js "1em");
           (js "lineHeight", js "1em")] [Text 5 [8203%N]];
        Text 6 (js "b");
        Text 2 (js "c.break.d")], 7) in
  wf dom
  ∧ forEachTextNode settings before dom = Some dom1
  ∧ parentNode dom1.1 (nodeId detached) = None
  ∧ replaceIfIncluded settings dom1 detached = Some dom1
  ∧ forEachTextNode settings (before ++ detached :: after) dom
    = forEachTextNode settings (before ++ after) dom.
Proof.
  intros settings context dom before detached after dom1.
  assert (wf dom) as Hwf by by_decision.
  assert (forEachTextNode settings before dom = Some dom1) as Hbefore
    by (vm_compute; reflexivity).
  assert (parentNode dom1.1 (nodeId detached) = None) as Hparent
    by (vm_compute; reflexivity).
  split_and!; [done..| |];
    apply (fault_isolation settings context dom before detached after dom1);
    auto.
Defined.

(** C10.  With an empty trigger word nothing in [processLineBreaks] stops
    the substitution: a text node of two code units or more is replaced by
    one text node for each code unit with a marker between every two
    neighbours, so by one marker less than there are code units; a text
    node of one code unit or none stays. *)
Theorem empty_trigger_splits_code_units settings context dom p tag st
    pre i text post :
  wf dom →
  Element p tag st (pre ++ Text i text :: post) ∈ dom.1 :: descendants dom.1 →
  triggerWord settings = [] →
  enabled settings = true →
  postProcessor settings dom context = processLineBreaks settings dom context
  ∧ (2 ≤ length text →
     ∃ fragment,
       becomes settings dom context p tag st pre (Text i text) post fragment
       ∧ shape <$> fragment
         = intersperse (BreakMarker settings)
             ((λ c, TextFragment [c]) <$> text)
       ∧ length (breakMarkers fragment) = length text - 1)
  ∧ (length text ≤ 1 →
     becomes settings dom context p tag st pre (Text i text) post
       [Text i text]).
Proof.
  intros Hwf He Htok Hon.
  destruct (substitute_becomes settings dom context p tag st pre _ post
              Hwf He) as (m & _ & Hbecomes).
  assert (JS.split text (triggerWord settings) = (λ c, [c]) <$> text)
    as Hsplit by (by rewrite Htok).
  split_and!.
  - unfold postProcessor. by rewrite Hon.
  - intros Hlen. eexists. split; [exact Hbecomes|].
    rewrite substitute_Text_replaced
      by ((rewrite Htok; apply includes_nil)
          || (rewrite Hsplit, length_fmap; lia)).
    rewrite Hsplit. split.
    + rewrite fragmentFrom_shape. apply replacementSequence_units.
    + destruct (fragmentFrom_facts settings ((λ c, [c]) <$> text) m)
        as (-> & _). by rewrite length_fmap.
  - intros Hlen. rewrite substitute_Text_kept in Hbecomes; [done|].
    right. by rewrite Hsplit, length_fmap.
Qed.

Lemma empty_trigger_splits_code_units_witness :
  let settings :=
    {| triggerWord := []; breakMethod := js "html-br"; enabled := true |} in
  let context := {| docId := js "doc"; sourcePath := js "note.md" |} in
  let dom : Dom := (Element 0 (js "p") [] [Text 1 (js "abc")], 2) in
  wf dom
  ∧ triggerWord settings = []
  ∧ enabled settings = true
  ∧ 2 ≤ length (js "abc")
  ∧ ∃ fragment,
      becomes settings dom context 0 (js "p") [] [] (Text 1 (js "abc")) []
        fragment
      ∧ shape <$> fragment
        = intersperse (BreakMarker settings)
            ((λ c, TextFragment [c]) <$> js "abc")
      ∧ length (breakMarkers fragment) = length (js "abc") - 1.
Proof.
  intros settings context dom.
  assert (wf dom) as Hwf by by_decision.
  assert (2 ≤ length (js "abc")) as Hlen by (vm_compute; lia).
  split_and!; [done..|].
  apply (empty_trigger_splits_code_units settings context dom 0 (js "p") []
           [] 1 (js "abc") []); [done|left|reflexivity|reflexivity|done].
Defined.


(** * Further properties *)

(** ** The settings and the data file *)

Lemma loadSettings_saveSettings settings :
  loadSettings (Some (saveSettings settings)) = settings.
Proof. by destruct settings. Qed.

Lemma handle_in_sync plugin event :
  loadSettings (pluginData plugin) = pluginSettings plugin →
  loadSettings (pluginData (handle plugin event))
  = pluginSettings (handle plugin event).
Proof.
  intros Hsync. destruct event; cbn [handle onload saved pluginData pluginSettings];
    by rewrite ?loadSettings_saveSettings.
Qed.

Lemma foldl_handle_in_sync plugin events :
  loadSettings (pluginData plugin) = pluginSettings plugin →
  loadSettings (pluginData (foldl handle plugin events))
  = pluginSettings (foldl handle plugin events).
Proof.
  intros Hsync. induction events as [|event events IH] using rev_ind; [done|].
  rewrite foldl_app. cbn [foldl]. by apply handle_in_sync.
Qed.

Lemma handle_trigger_not_empty plugin event :
  loadSettings (pluginData plugin) = pluginSettings plugin →
  triggerWord (pluginSettings plugin) ≠ [] →
  triggerWord (pluginSettings (handle plugin event)) ≠ [].
Proof.
  intros Hsync Hne. destruct event; cbn [handle onload saved pluginSettings];
    [by rewrite Hsync|done| |done].
  apply onChangeTriggerWord_not_empty.
Qed.

Lemma foldl_handle_trigger_not_empty plugin events :
  loadSettings (pluginData plugin) = pluginSettings plugin →
  triggerWord (pluginSettings plugin) ≠ [] →
  triggerWord (pluginSettings (foldl handle plugin events)) ≠ [].
Proof.
  intros Hsync Hne. induction events as [|event events IH] using rev_ind; [done|].
  rewrite foldl_app. cbn [foldl].
  apply handle_trigger_not_empty; [by apply foldl_handle_in_sync|done].
Qed.

(** X1.  What [saveSettings] writes, [loadSettings] reads back as the same
    settings, whatever they are; and saving what was loaded from a data
    file, then loading it, gives what the file gave. *)
Theorem save_load_round_trip settings data :
  loadSettings (Some (saveSettings settings)) = settings
  ∧ loadSettings (Some (saveSettings (loadSettings data))) = loadSettings data.
Proof. split; apply loadSettings_saveSettings. Qed.

(** X2.  After [onload] and any sequence of reloads and changes in the
    settings tab, the data file holds the settings in use: loading it again
    gives exactly the settings object the plugin has. *)
Theorem settings_persisted data events :
  let plugin := foldl handle (onload data) events in
  loadSettings (pluginData plugin) = pluginSettings plugin.
Proof. cbn zeta. by apply foldl_handle_in_sync. Qed.

(** X3.  When the data file the plugin starts from resolves to a trigger
    word that is not empty (no file, no stored trigger word, or a stored
    one that is not empty), the trigger word in use is never empty, after
    any sequence of reloads and changes in the settings tab. *)
Theorem trigger_word_stays_not_empty data events :
  triggerWord (loadSettings data) ≠ [] →
  triggerWord (pluginSettings (foldl handle (onload data) events)) ≠ [].
Proof. intros Hne. by apply foldl_handle_trigger_not_empty. Qed.

Lemma trigger_word_stays_not_empty_witness :
  let events :=
    [TypeTriggerWord (js "//"); Toggle false; TypeTriggerWord [];
     ChooseBreakMethod (js "html-br"); Reload] in
  triggerWord (loadSettings None) ≠ []
  ∧ triggerWord (pluginSettings (foldl handle (onload None) events)) ≠ []
  ∧ pluginSettings (foldl handle (onload None) events)
    = {| triggerWord := js ".break."; breakMethod := js "html-br";
         enabled := false |}.
Proof.
  intros events.
  assert (triggerWord (loadSettings None) ≠ []) as Hne by done.
  split_and!; [done| |vm_compute; reflexivity].
  apply (trigger_word_stays_not_empty None events Hne).
Defined.

(** X4.  Once the user has typed in the trigger-word field, the trigger
    word in use is not empty from then on, whatever the settings and the
    data file were before. *)
Theorem typing_repairs_trigger_word plugin value events :
  triggerWord
    (pluginSettings
       (foldl handle (handle plugin (TypeTriggerWord value)) events)) ≠ [].
Proof.
  apply foldl_handle_trigger_not_empty.
  - apply loadSettings_saveSettings.
  - apply onChangeTriggerWord_not_empty.
Qed.

(** ** The tree after the call *)

Section after.
Variable settings : LineBreakSettings.

(** The piece before the leftmost occurrence of the separator does not
    include the separator. *)
Lemma includes_take_leftmost (s sep : JSString) j :
  sep ≠ [] → JS.indexOf s sep = Some j → JS.includes (take j s) sep = false.
Proof.
  intros Hsep Hj. apply includes_false.
  destruct (JS.indexOf (take j s) sep) as [i|] eqn:Hi; [|done]. exfalso.
  pose proof (indexOf_Some _ _ _ Hi) as [k Hk].
  pose proof (f_equal length Hk) as Hlen.
  rewrite length_drop, length_app in Hlen.
  assert (i < length (take j s) ∧ i < j) as [Hlt' Hlt].
  { rewrite length_take in Hlen |- *. destruct sep; [done|]. simpl in Hlen. lia. }
  apply (indexOf_leftmost s sep j i Hj Hlt).
  exists (k ++ drop j s). rewrite <-(take_drop j s) at 1.
  rewrite drop_app_le, Hk, <-app_assoc; [done|lia].
Qed.

(** No piece of [split] includes the separator. *)
Lemma split_pieces_free (s sep : JSString) :
  sep ≠ [] → Forall (λ p, JS.includes p sep = false) (JS.split s sep).
Proof.
  intros Hsep. induction s as [s Hj|s j Hj IH] using (scan_ind sep Hsep);
    rewrite split_unfold, Hj by done.
  - repeat constructor. by apply includes_false.
  - constructor; [by apply includes_take_leftmost|done].
Qed.

Lemma createLineBreak_textContent next :
  textContent (createLineBreak settings next).1 = markerText settings.
Proof. unfold markerText, createLineBreak. by repeat case_decide. Qed.

(** The hypothesis of the lemmas below: the text of a marker does not
    include the trigger word.  It makes the trigger word not empty. *)
Lemma markerText_free_not_empty :
  JS.includes (markerText settings) (triggerWord settings) = false →
  triggerWord settings ≠ [].
Proof. intros H Hnil. by rewrite Hnil, includes_nil in H. Qed.

Lemma collectFrom_createLineBreak next :
  JS.includes (markerText settings) (triggerWord settings) = false →
  collectFrom settings (createLineBreak settings next).1 = [].
Proof.
  unfold markerText, collectFrom, createLineBreak.
  repeat case_decide; cbn [fst descendants]; intros Hfree; try done.
  rewrite bind_singleton. cbn [descendants app].
  rewrite filter_cons_False by done. rewrite filter_cons_True by done.
  rewrite filter_cons_False; [done|].
  change (JS.includes [8203%N] (triggerWord settings) = false) in Hfree.
  cbn [textContent]. by rewrite Hfree.
Qed.

Lemma collectFrom_fragmentFrom parts next :
  JS.includes (markerText settings) (triggerWord settings) = false →
  Forall (λ p, JS.includes p (triggerWord settings) = false) parts →
  (fragmentFrom settings parts next).1 ≫= collectFrom settings = [].
Proof.
  intros Hmarker Hparts. revert next.
  induction Hparts as [|part rest Hpart _ IH]; intros next; [done|].
  cbn [fragmentFrom].
  set (acc1 := if bool_decide (0 < length part)
               then ([Text next part], S next) else ([], next)).
  assert (acc1.1 ≫= collectFrom settings = []) as Hacc.
  { subst acc1. case_bool_decide; [|done]. cbn [fst].
    by rewrite bind_singleton, collectFrom_Text, Hpart. }
  destruct rest as [|part' rest']; [done|]. cbn [fst].
  by rewrite bind_app, bind_cons, Hacc, collectFrom_createLineBreak, IH.
Qed.

(** After the substitution no text node includes the trigger word. *)
Lemma collectFrom_substitute n next :
  JS.includes (markerText settings) (triggerWord settings) = false →
  (substitute settings n next).1 ≫= collectFrom settings = [].
Proof.
  intros Hmarker. pose proof (markerText_free_not_empty Hmarker) as Htok.
  revert next. induction n as [i d|i tag st cs IH] using Node_forest_ind;
    intros next.
  - cbn [substitute]. destruct (JS.includes d _) eqn:Hinc; cbn [andb].
    + rewrite bool_decide_eq_true_2.
      * rewrite buildFragment_from.
        by apply collectFrom_fragmentFrom, split_pieces_free.
      * rewrite split_length by done.
        apply includes_occurrences in Hinc; [lia|done].
    + cbn [fst]. by rewrite bind_singleton, collectFrom_Text, Hinc.
  - cbn [substitute fst]. rewrite bind_singleton, collectFrom_Element.
    revert next. induction IH as [|c cs Hc _ IHcs]; intros next; [done|].
    cbn [bindAccum fst]. by rewrite bind_app, Hc, IHcs.
Qed.

Lemma collectTextNodes_substituteBelow dom :
  JS.includes (markerText settings) (triggerWord settings) = false →
  collectTextNodes settings (substituteBelow settings dom).1 = [].
Proof.
  intros Hmarker. destruct dom as [[i d|i tag st cs] next]; [done|].
  pose proof (collectFrom_substitute (Element i tag st cs) next Hmarker) as H.
  cbn [substitute fst] in H. rewrite bind_singleton, collectFrom_Element in H.
  unfold substituteBelow. cbn [fst snd]. by rewrite collectTextNodes_Element.
Qed.

End after.

(** X5.  When the text of a marker does not include the trigger word (the
    trigger word is not empty, and it is not the zero-width space when the
    method is ['zero-width']), no text node of the tree includes the
    trigger word after the call: every occurrence has been replaced. *)
Theorem no_trigger_word_left settings context dom :
  wf dom →
  JS.includes (markerText settings) (triggerWord settings) = false →
  ∃ dom',
    processLineBreaks settings dom context = Some dom'
    ∧ Forall (λ t, JS.includes (textContent t) (triggerWord settings) = false)
        (treeWalkerShowText dom'.1).
Proof.
  intros Hwf Hmarker. exists (substituteBelow settings dom).
  split; [by apply processLineBreaks_substitute|].
  pose proof (collectTextNodes_substituteBelow settings dom Hmarker) as Hnil.
  unfold collectTextNodes in Hnil. apply Forall_forall. intros t Ht.
  destruct (JS.includes (textContent t) (triggerWord settings)) eqn:Hinc; [|done].
  assert (t ∈ @nil Node) as Hin; [|by apply elem_of_nil in Hin].
  rewrite <-Hnil. by apply list_elem_of_filter.
Qed.

Lemma no_trigger_word_left_witness :
  let settings := DEFAULT_SETTINGS in
  let context := {| docId := js "doc"; sourcePath := js "note.md" |} in
  let dom : Dom :=
    (Element 0 (js "p") []
       [Text 1 (js "A.break..break.B");
        Element 2 (js "em") [] [Text 3 (js ".break.")]], 4) in
  wf dom
  ∧ JS.includes (markerText settings) (triggerWord settings) = false
  ∧ ∃ dom',
      processLineBreaks settings dom context = Some dom'
      ∧ Forall (λ t, JS.includes (textContent t) (triggerWord settings) = false)
          (treeWalkerShowText dom'.1).
Proof.
  intros settings context dom.
  assert (wf dom) as Hwf by by_decision.
  assert (JS.includes (markerText settings) (triggerWord settings) = false)
    as Hmarker by (vm_compute; reflexivity).
  split_and!; [done..|].
  apply (no_trigger_word_left settings context dom Hwf Hmarker).
Defined.

(** X6.  The two post processors registered by [onload] run one after the
    other on the same element.  When the text of a marker does not include
    the trigger word, the second one finds nothing to do: it returns the
    state the first one left, tree and identity counter, and so does any
    further run. *)
Theorem second_post_processor_is_noop settings context dom :
  wf dom →
  JS.includes (markerText settings) (triggerWord settings) = false →
  ∃ dom',
    postProcessor settings dom context = Some dom'
    ∧ livePreviewPostProcessor settings dom' context = Some dom'
    ∧ postProcessor settings dom' context = Some dom'.
Proof.
  intros Hwf Hmarker.
  unfold livePreviewPostProcessor, postProcessor, processLivePreview.
  destruct (enabled settings); cbn [negb]; [|by exists dom].
  exists (substituteBelow settings dom).
  rewrite processLineBreaks_substitute by done.
  unfold processLineBreaks.
  by rewrite collectTextNodes_substituteBelow.
Qed.

Lemma second_post_processor_is_noop_witness :
  let settings := DEFAULT_SETTINGS in
  let context := {| docId := js "doc"; sourcePath := js "note.md" |} in
  let dom : Dom :=
    (Element 0 (js "p") [] [Text 1 (js "First line.break.Second line")], 2) in
  wf dom
  ∧ JS.includes (markerText settings) (triggerWord settings) = false
  ∧ ∃ dom',
      postProcessor settings dom context = Some dom'
      ∧ livePreviewPostProcessor settings dom' context = Some dom'
      ∧ postProcessor settings dom' context = Some dom'.
Proof.
  intros settings context dom.
  assert (wf dom) as Hwf by by_decision.
  assert (JS.includes (markerText settings) (triggerWord settings) = false)
    as Hmarker by (vm_compute; reflexivity).
  split_and!; [done..|].
  apply (second_post_processor_is_noop settings context dom Hwf Hmarker).
Defined.

(** The hypothesis of X6 is needed: with the zero-width space as trigger
    word and the method ['zero-width'], the text of every marker is the
    trigger word, and a second run wraps it in a marker again. *)
Example second_post_processor_nests :
  let settings :=
    {| triggerWord := [8203%N]; breakMethod := js "zero-width";
       enabled := true |} in
  let context := {| docId := js "doc"; sourcePath := js "note.md" |} in
  let dom : Dom := (Element 0 (js "p") [] [Text 1 [97%N; 8203%N; 98%N]], 2) in
  (λ dom', shape dom'.1) <$>
    (postProcessor settings dom context
       ≫= λ dom', livePreviewPostProcessor settings dom' context)
  = Some
      (Markup (js "p") []
         [TextFragment [97%N];
          Markup (js "span")
            [(js "display", js "block"); (js "height", js "1em");
             (js "lineHeight", js "1em")] [ZERO_WIDTH];
          TextFragment [98%N]]).
Proof. vm_compute. reflexivity. Qed.

(** ** Identities *)

Section identities.
Variable settings : LineBreakSettings.


(** The identity of the replaced node is not in the result. *)
Lemma replaceNode_target_gone t frag n :
  t ∉ frag ≫= ids → t ∉ replaceNode t frag n ≫= ids.
Proof.
  intros Hfrag.
  induction n as [i d|i tag st cs IH] using Node_forest_ind;
    cbn [replaceNode nodeId]; case_decide as Hi; try done.
  - rewrite bind_singleton. cbn [ids]. apply not_elem_of_cons.
    split; [congruence|apply not_elem_of_nil].
  - rewrite bind_singleton. cbn [ids]. apply not_elem_of_cons.
    split; [congruence|].
    induction IH as [|c cs Hc _ IHcs]; [apply not_elem_of_nil|].
    rewrite bind_cons, bind_app. by apply not_elem_of_app.
Qed.

Lemma replaceNode_forest_target_gone t frag (cs : list Node) :
  t ∉ frag ≫= ids → t ∉ (cs ≫= replaceNode t frag) ≫= ids.
Proof.
  intros Hfrag. induction cs as [|c cs IH]; [apply not_elem_of_nil|].
  rewrite bind_cons, bind_app. apply not_elem_of_app.
  split; [by apply replaceNode_target_gone|done].
Qed.

(** A round of the loop changes nothing, or it replaces its node, which
    then is not below the root any more. *)
Lemma stepBelow_same_or_gone cs (next : NodeId) textNode :
  Forall (λ j, j < next) (cs ≫= ids) →
  stepBelow settings (cs, next) textNode = (cs, next)
  ∨ nodeId textNode ∉ (stepBelow settings (cs, next) textNode).1 ≫= ids.
Proof.
  intros Hlt. unfold stepBelow. cbn [fst snd].
  destruct (_ && _ && _) eqn:Hcond; [right|by left].
  apply andb_true_iff in Hcond as [_ Ht%bool_decide_eq_true].
  cbn [fst]. apply replaceNode_forest_target_gone.
  destruct (buildFragment_ids settings
              (JS.split (textContent textNode) (triggerWord settings)) next)
    as (k & _ & ->).
  intros Hin%elem_of_seq. rewrite Forall_forall in Hlt.
  specialize (Hlt _ Ht). lia.
Qed.

Lemma stepBelow_again cs (next : NodeId) textNode :
  Forall (λ j, j < next) (cs ≫= ids) →
  stepBelow settings (stepBelow settings (cs, next) textNode) textNode
  = stepBelow settings (cs, next) textNode.
Proof.
  intros Hlt.
  destruct (stepBelow_same_or_gone cs next textNode Hlt) as [Heq|Hgone];
    [by rewrite !Heq|].
  destruct (stepBelow settings (cs, next) textNode) as [cs' next'].
  unfold stepBelow. cbn [fst snd] in *.
  rewrite (bool_decide_eq_false_2 (_ ∈ _)) by done. by rewrite andb_false_r.
Qed.

End identities.

(** X7.  On a tree with unique identities [processLineBreaks] returns, and
    the tree it leaves has unique identities again, all below the new
    counter; the counter does not go down; the root is the node it was;
    and every identity of the new tree is one of the old tree or one drawn
    from the counter during the call. *)
Theorem call_keeps_identities settings context dom :
  wf dom →
  ∃ dom',
    processLineBreaks settings dom context = Some dom'
    ∧ wf dom'
    ∧ dom.2 ≤ dom'.2
    ∧ nodeId dom'.1 = nodeId dom.1
    ∧ isText dom'.1 = isText dom.1
    ∧ ∀ x, x ∈ ids dom'.1 → x ∈ ids dom.1 ∨ (dom.2 ≤ x ∧ x < dom'.2).
Proof.
  intros Hwf. exists (substituteBelow settings dom).
  pose proof (substituteBelow_wf settings dom Hwf) as Hwf'.
  split; [by apply processLineBreaks_substitute|]. split; [done|].
  destruct dom as [[i d|i tag st cs] next].
  { split_and!; try done. intros x Hx. by left. }
  unfold substituteBelow in *. cbn [fst snd] in *.
  assert (Forall (λ n, ∀ next,
            next ≤ (substitute settings n next).2
            ∧ ∀ x, x ∈ (substitute settings n next).1 ≫= ids →
                   x ∈ ids n ∨ next ≤ x) cs) as Hcs
    by (apply Forall_forall; intros n _; apply substitute_ids).
  destruct (bindAccum_substitute_ids settings cs Hcs next) as [Hle Hin].
  split_and!; try done. intros x Hx.
  destruct Hwf' as [_ Hlt]. cbn [fst snd] in Hlt.
  rewrite Forall_forall in Hlt. pose proof (Hlt x Hx) as Hx'.
  cbn [ids] in Hx |- *. apply elem_of_cons in Hx as [->|Hx]; [left; left|].
  destruct (Hin x Hx); [left; by right|right; lia].
Qed.

Lemma call_keeps_identities_witness :
  let settings := DEFAULT_SETTINGS in
  let context := {| docId := js "doc"; sourcePath := js "note.md" |} in
  let dom : Dom :=
    (Element 0 (js "p") []
       [Text 1 (js "A.break..break.B");
        Element 2 (js "em") [] [Text 3 (js ".break.")]], 4) in
  wf dom
  ∧ ∃ dom',
      processLineBreaks settings dom context = Some dom'
      ∧ wf dom'
      ∧ dom.2 ≤ dom'.2
      ∧ nodeId dom'.1 = nodeId dom.1
      ∧ isText dom'.1 = isText dom.1
      ∧ ∀ x, x ∈ ids dom'.1 → x ∈ ids dom.1 ∨ (dom.2 ≤ x ∧ x < dom'.2).
Proof.
  intros settings context dom.
  assert (wf dom) as Hwf by by_decision.
  split; [done|]. apply (call_keeps_identities settings context dom Hwf).
Defined.

(** X8.  A round of the second loop on a node that it has just handled
    changes nothing: a node that was replaced has no parent any more, and a
    node that was left alone is left alone again. *)
Theorem round_again_is_noop settings dom textNode :
  wf dom →
  ∃ dom1,
    replaceIfIncluded settings dom textNode = Some dom1
    ∧ replaceIfIncluded settings dom1 textNode = Some dom1
    ∧ (dom1 = dom ∨ parentNode dom1.1 (nodeId textNode) = None).
Proof.
  intros Hwf. destruct dom as [[i d|i tag st cs] next].
  - exists (Text i d, next).
    assert (replaceIfIncluded settings (Text i d, next) textNode
            = Some (Text i d, next)) as Hround.
    { unfold replaceIfIncluded, replaceTextNodeWithBreaks.
      destruct (JS.includes _ _); [|done]. by case_bool_decide. }
    split_and!; [done..|by left].
  - pose proof (stepBelow_wf settings i tag st cs next textNode Hwf) as Hwf1.
    assert (Forall (λ j, j < next) (cs ≫= ids)) as Hlt.
    { destruct Hwf as [_ Hlt]. cbn [fst snd ids] in Hlt.
      by apply Forall_cons in Hlt as [_ ?]. }
    pose proof (stepBelow_again settings cs next textNode Hlt) as Hagain.
    pose proof (stepBelow_same_or_gone settings cs next textNode Hlt) as Hcase.
    eexists. split; [by apply replaceIfIncluded_stepBelow|].
    destruct (stepBelow settings (cs, next) textNode) as [cs1 next1].
    cbn [fst snd] in *. split.
    + rewrite replaceIfIncluded_stepBelow by done. by rewrite Hagain.
    + destruct Hcase as [[= -> ->]|Hgone]; [by left|right].
      by apply parentNode_None.
Qed.

Lemma round_again_is_noop_witness :
  let settings := DEFAULT_SETTINGS in
  let textNode := Text 1 (js "a.break.b") in
  let dom : Dom := (Element 0 (js "p") [] [textNode], 2) in
  wf dom
  ∧ ∃ dom1,
      replaceIfIncluded settings dom textNode = Some dom1
      ∧ replaceIfIncluded settings dom1 textNode = Some dom1
      ∧ (dom1 = dom ∨ parentNode dom1.1 (nodeId textNode) = None).
Proof.
  intros settings textNode dom.
  assert (wf dom) as Hwf by by_decision.
  split; [done|]. apply (round_again_is_noop settings dom textNode Hwf).
Defined.



(** ** Elements, text and shape after the call *)

Section content.
Variable settings : LineBreakSettings.

Lemma createLineBreak_nodeId next :
  nodeId (createLineBreak settings next).1 = next.
Proof. unfold createLineBreak. by repeat case_decide. Qed.

Lemma createLineBreak_descendants next :
  Forall (λ n, isText n = true) (descendants (createLineBreak settings next).1).
Proof.
  unfold createLineBreak. repeat case_decide; cbn [fst descendants];
    rewrite ?bind_singleton; by repeat constructor.
Qed.

Lemma createLineBreak_counter next :
  next ≤ (createLineBreak settings next).2.
Proof. destruct (createLineBreak_ids settings next) as (k & -> & _). lia. Qed.

(** The elements of a fragment are its markers, with identities drawn from
    the counter. *)
Lemma fragmentFrom_elements parts next e :
  e ∈ (fragmentFrom settings parts next).1 ≫= (λ c, c :: descendants c) →
  isText e = false →
  next ≤ nodeId e ∧ shape e = BreakMarker settings.
Proof.
  revert next. induction parts as [|part rest IH]; intros next.
  { by intros ?%elem_of_nil. }
  cbn [fragmentFrom].
  set (acc1 := if bool_decide (0 < length part)
               then ([Text next part], S next) else ([], next)).
  assert (next ≤ acc1.2
          ∧ ∀ e, e ∈ acc1.1 ≫= (λ c, c :: descendants c) → isText e = true)
    as [Hle Hacc].
  { subst acc1. case_bool_decide; cbn [fst snd]; (split; [lia|]); intros e'.
    - rewrite bind_singleton. by intros ->%list_elem_of_singleton.
    - by intros ?%elem_of_nil. }
  destruct rest as [|part' rest'].
  { intros He Hel. by rewrite (Hacc e He) in Hel. }
  cbn [fst]. rewrite bind_app, bind_cons. intros He Hel.
  apply elem_of_app in He as [He|He]; [by rewrite (Hacc e He) in Hel|].
  apply elem_of_app in He as [[->|He]%elem_of_cons|He].
  - rewrite createLineBreak_nodeId, createLineBreak_shape. by split.
  - pose proof (createLineBreak_descendants acc1.2) as Hd.
    rewrite Forall_forall in Hd. by rewrite (Hd e He) in Hel.
  - destruct (IH _ He Hel) as [Hle' Hshape]. split; [|done].
    pose proof (createLineBreak_counter acc1.2). lia.
Qed.

(** An element of the result is an element of the tree, with its identity,
    tag and style, or a marker drawn from the counter. *)
Lemma substitute_elements_back n next p tag st cs' :
  Element p tag st cs'
    ∈ (substitute settings n next).1 ≫= (λ c, c :: descendants c) →
  (∃ cs, Element p tag st cs ∈ n :: descendants n)
  ∨ (next ≤ p ∧ shape (Element p tag st cs') = BreakMarker settings).
Proof.
  revert next. induction n as [i d|i tag' st' ds IH] using Node_forest_ind;
    intros next.
  - cbn [substitute]. destruct (_ && _).
    + rewrite buildFragment_from. intros He. right.
      by apply (fragmentFrom_elements _ _ _ He).
    + cbn [fst]. rewrite bind_singleton.
      by intros ?%list_elem_of_singleton.
  - cbn [substitute fst]. rewrite bind_singleton.
    intros [[= -> -> -> _]|He]%elem_of_cons.
    { left. exists ds. left. }
    cbn [descendants] in He |- *.
    assert ((∃ cs, Element p tag st cs ∈ ds ≫= (λ c, c :: descendants c))
            ∨ (next ≤ p ∧ shape (Element p tag st cs') = BreakMarker settings))
      as [[cs Hcs]|?]; [|left; exists cs; by right|by right].
    clear i tag' st'. revert next He.
    induction IH as [|c ds Hc _ IHds]; intros next He.
    { by apply elem_of_nil in He. }
    cbn [bindAccum fst] in He. rewrite bind_app in He.
    apply elem_of_app in He as [He|He].
    + destruct (Hc _ He) as [[cs Hcs]|?]; [left|by right].
      exists cs. rewrite bind_cons. apply elem_of_app. by left.
    + destruct (IHds _ He) as [[cs Hcs]|[Hle Hshape]]; [left|right].
      * exists cs. rewrite bind_cons. apply elem_of_app. by right.
      * split; [|done]. pose proof (substitute_ids settings c next) as [? _].
        lia.
Qed.

End content.

(** X10.  [processLineBreaks] removes, renames and restyles no element, and
    creates none but markers: every element of the tree is in the result
    with its identity, tag and style; and every element of the result is
    such an element of the tree, or has the shape of a marker and an
    identity drawn from the counter during the call. *)
Theorem elements_kept settings context dom :
  wf dom →
  ∃ dom',
    processLineBreaks settings dom context = Some dom'
    ∧ (∀ p tag st cs,
         Element p tag st cs ∈ dom.1 :: descendants dom.1 →
         ∃ cs', Element p tag st cs' ∈ dom'.1 :: descendants dom'.1)
    ∧ (∀ p tag st cs',
         Element p tag st cs' ∈ dom'.1 :: descendants dom'.1 →
         (∃ cs, Element p tag st cs ∈ dom.1 :: descendants dom.1)
         ∨ (dom.2 ≤ p ∧ shape (Element p tag st cs') = BreakMarker settings)).
Proof.
  intros Hwf. exists (substituteBelow settings dom).
  split; [by apply processLineBreaks_substitute|].
  destruct dom as [[i d|i tag0 st0 ds] next].
  { split; intros p tag st cs; eauto. }
  assert ((substituteBelow settings (Element i tag0 st0 ds, next)).1
            :: descendants
                 (substituteBelow settings (Element i tag0 st0 ds, next)).1
          = (substitute settings (Element i tag0 st0 ds) next).1
              ≫= (λ c, c :: descendants c)) as ->
    by (unfold substituteBelow; cbn [substitute fst snd];
        by rewrite bind_singleton).
  cbn [fst snd]. split.
  - intros p tag st cs He.
    destruct (substitute_element settings _ _ _ _ _ next He) as (m & _ & Hin).
    eauto.
  - intros p tag st cs'. apply substitute_elements_back.
Qed.

Lemma elements_kept_witness :
  let settings := DEFAULT_SETTINGS in
  let context := {| docId := js "doc"; sourcePath := js "note.md" |} in
  let dom : Dom :=
    (Element 0 (js "p") [(js "color", js "red")]
       [Text 1 (js "A.break.B");
        Element 2 (js "em") [] [Text 3 (js ".break.")]], 4) in
  wf dom
  ∧ ∃ dom',
      processLineBreaks settings dom context = Some dom'
      ∧ (∀ p tag st cs,
           Element p tag st cs ∈ dom.1 :: descendants dom.1 →
           ∃ cs', Element p tag st cs' ∈ dom'.1 :: descendants dom'.1)
      ∧ (∀ p tag st cs',
           Element p tag st cs' ∈ dom'.1 :: descendants dom'.1 →
           (∃ cs, Element p tag st cs ∈ dom.1 :: descendants dom.1)
           ∨ (dom.2 ≤ p
              ∧ shape (Element p tag st cs') = BreakMarker settings)).
Proof.
  intros settings context dom.
  assert (wf dom) as Hwf by by_decision.
  split; [done|]. apply (elements_kept settings context dom Hwf).
Defined.

Section text.
Variable settings : LineBreakSettings.

(** The text of a node is the text of its text nodes in document order. *)
Lemma textContent_text_nodes n :
  textContent n
  = filter (λ t, isText t = true) (n :: descendants n) ≫= textContent.
Proof.
  induction n as [i d|i tag st cs IH] using Node_forest_ind.
  - cbn [descendants]. rewrite filter_cons_True, filter_nil by done.
    by rewrite bind_singleton.
  - rewrite filter_cons_False by done. cbn [textContent descendants].
    induction IH as [|c cs Hc _ IHcs]; [done|].
    by rewrite !bind_cons, filter_app, bind_app, <-Hc, <-IHcs.
Qed.

Lemma join_short (parts : list JSString) (sep sep' : JSString) :
  length parts ≤ 1 → JS.join parts sep = JS.join parts sep'.
Proof. destruct parts as [|p [|q parts]]; simpl; done || lia. Qed.

(** The text of a fragment is the pieces joined by the text of a marker. *)
Lemma fragmentFrom_textContent parts next :
  (fragmentFrom settings parts next).1 ≫= textContent
  = JS.join parts (markerText settings).
Proof.
  revert next. induction parts as [|part rest IH]; intros next; [done|].
  cbn [fragmentFrom].
  set (acc1 := if bool_decide (0 < length part)
               then ([Text next part], S next) else ([], next)).
  assert (acc1.1 ≫= textContent = part) as Hacc.
  { subst acc1. case_bool_decide as Hlen; cbn [fst].
    - by rewrite bind_singleton.
    - destruct part; [done|simpl in Hlen; lia]. }
  destruct rest as [|part' rest']; [done|].
  cbn [fst]. rewrite bind_app, bind_cons, Hacc, createLineBreak_textContent, IH.
  done.
Qed.

(** A text node that is kept is its own text with the occurrences
    replaced: it has none, or it is too short to be split. *)
Lemma join_split_kept (d : JSString) :
  JS.includes d (triggerWord settings) = false
  ∨ length (JS.split d (triggerWord settings)) ≤ 1 →
  JS.join (JS.split d (triggerWord settings)) (markerText settings) = d.
Proof.
  intros Hkept.
  assert (length (JS.split d (triggerWord settings)) ≤ 1) as Hlen.
  { destruct Hkept as [Hinc|?]; [|done].
    destruct (decide (triggerWord settings = [])) as [Hnil|Hne].
    - by rewrite Hnil, includes_nil in Hinc.
    - by rewrite split_not_included. }
  rewrite (join_short _ _ (triggerWord settings)) by done. apply join_split.
Qed.

Lemma substitute_textContent n next :
  (substitute settings n next).1 ≫= textContent
  = filter (λ t, isText t = true) (n :: descendants n)
      ≫= (λ t, JS.join (JS.split (textContent t) (triggerWord settings))
                 (markerText settings)).
Proof.
  revert next. induction n as [i d|i tag st cs IH] using Node_forest_ind;
    intros next.
  - cbn [descendants]. rewrite filter_cons_True, filter_nil by done.
    rewrite bind_singleton. cbn [substitute textContent].
    destruct (JS.includes d _) eqn:Hinc; cbn [andb].
    + case_bool_decide as Hlen.
      * by rewrite buildFragment_from, fragmentFrom_textContent.
      * cbn [fst]. rewrite bind_singleton, join_split_kept; [done|right; lia].
    + cbn [fst]. rewrite bind_singleton, join_split_kept; [done|by left].
  - rewrite filter_cons_False by done. cbn [substitute fst descendants].
    rewrite bind_singleton. cbn [textContent].
    revert next. induction IH as [|c cs Hc _ IHcs]; intros next; [done|].
    cbn [bindAccum fst].
    by rewrite !bind_cons, !bind_app, filter_app, bind_app, Hc, IHcs.
Qed.

(** The shapes of the substitution are the substitution of the shape. *)
Lemma substitute_shape n next :
  shape <$> (substitute settings n next).1 = substituteShape settings (shape n).
Proof.
  revert next. induction n as [i d|i tag st cs IH] using Node_forest_ind;
    intros next.
  - cbn [substitute shape substituteShape]. destruct (_ && _); [|done].
    apply buildFragment_shape.
  - cbn [substitute shape substituteShape fst]. rewrite fmap_cons.
    cbn [shape fmap list_fmap]. do 2 f_equal.
    revert next. induction IH as [|c cs Hc _ IHcs]; intros next; [done|].
    cbn [bindAccum fst]. by rewrite fmap_app, fmap_cons, bind_cons, Hc, IHcs.
Qed.

End text.

(** X11.  The text of the element after the call is its text before the
    call with every occurrence of the trigger word replaced by the text of
    a marker: text node by text node, [text.split(trigger).join(marker)],
    where the marker text is a zero-width space for ['zero-width'] and
    empty for the other methods. *)
Theorem text_after_call settings context dom :
  wf dom →
  isText dom.1 = false →
  ∃ dom',
    processLineBreaks settings dom context = Some dom'
    ∧ textContent dom.1 = treeWalkerShowText dom.1 ≫= textContent
    ∧ textContent dom'.1
      = treeWalkerShowText dom.1
          ≫= (λ t, JS.join (JS.split (textContent t) (triggerWord settings))
                     (markerText settings)).
Proof.
  intros Hwf Hroot. exists (substituteBelow settings dom).
  split; [by apply processLineBreaks_substitute|].
  destruct dom as [[i d|i tag st cs] next]; [done|]. cbn [fst snd]. split.
  - rewrite textContent_text_nodes. by rewrite filter_cons_False by done.
  - pose proof (substitute_textContent settings (Element i tag st cs) next)
      as Htext.
    rewrite filter_cons_False in Htext by done.
    cbn [substitute fst] in Htext. by rewrite bind_singleton in Htext.
Qed.

Lemma text_after_call_witness :
  let settings :=
    {| triggerWord := js "//"; breakMethod := js "html-br"; enabled := true |} in
  let context := {| docId := js "doc"; sourcePath := js "note.md" |} in
  let dom : Dom :=
    (Element 0 (js "p") []
       [Text 1 (js "one//two");
        Element 2 (js "em") [] [Text 3 (js "//three")]], 4) in
  wf dom
  ∧ isText dom.1 = false
  ∧ ∃ dom',
      processLineBreaks settings dom context = Some dom'
      ∧ textContent dom.1 = js "one//two//three"
      ∧ textContent dom'.1 = js "onetwothree".
Proof.
  intros settings context dom.
  assert (wf dom) as Hwf by by_decision.
  split_and!; [done..|].
  destruct (text_after_call settings context dom Hwf eq_refl)
    as (dom' & Hcall & Hbefore & Hafter).
  exists dom'. split_and!; [done|vm_compute; reflexivity|].
  rewrite Hafter. vm_compute. reflexivity.
Defined.

(** X12.  What the call shows does not depend on the identities: the shape
    of the result is the substitution, on shapes, of the shape of the
    element; so two elements of the same shape have results of the same
    shape, whatever their identities and counters. *)
Theorem shape_after_call settings context dom :
  wf dom →
  isText dom.1 = false →
  ∃ dom',
    processLineBreaks settings dom context = Some dom'
    ∧ substituteShape settings (shape dom.1) = [shape dom'.1]
    ∧ ∀ other,
        wf other → shape other.1 = shape dom.1 →
        ∃ other',
          processLineBreaks settings other context = Some other'
          ∧ shape other'.1 = shape dom'.1.
Proof.
  assert (∀ dom, wf dom → isText dom.1 = false →
            substituteShape settings (shape dom.1)
            = [shape (substituteBelow settings dom).1]) as Hshape.
  { intros [[i d|i tag st cs] next] _ Hroot; [done|].
    rewrite <-substitute_shape with (next := next). by cbn [fst snd]. }
  intros Hwf Hroot. exists (substituteBelow settings dom).
  split; [by apply processLineBreaks_substitute|].
  split; [by apply Hshape|].
  intros other Hwf' Hsame. exists (substituteBelow settings other).
  split; [by apply processLineBreaks_substitute|].
  assert (isText other.1 = false) as Hroot'.
  { destruct dom as [[|] ?], other as [[|] ?]; done. }
  pose proof (Hshape dom Hwf Hroot) as H1.
  pose proof (Hshape other Hwf' Hroot') as H2.
  rewrite Hsame, H1 in H2. by injection H2.
Qed.

Lemma shape_after_call_witness :
  let settings := DEFAULT_SETTINGS in
  let context := {| docId := js "doc"; sourcePath := js "note.md" |} in
  let dom : Dom := (Element 0 (js "p") [] [Text 1 (js ".break.Start")], 2) in
  wf dom
  ∧ isText dom.1 = false
  ∧ ∃ dom',
      processLineBreaks settings dom context = Some dom'
      ∧ [shape dom'.1]
        = [Markup (js "p") [] [ZERO_WIDTH; TextFragment (js "Start")]].
Proof.
  intros settings context dom.
  assert (wf dom) as Hwf by by_decision.
  split_and!; [done..|].
  destruct (shape_after_call settings context dom Hwf eq_refl)
    as (dom' & Hcall & Hshape & _).
  exists dom'. split; [done|]. rewrite <-Hshape. vm_compute. reflexivity.
Defined.

Section counting.
Variable settings : LineBreakSettings.

Lemma elementsOf_app l1 l2 : elementsOf (l1 ++ l2) = elementsOf l1 ++ elementsOf l2.
Proof. apply filter_app. Qed.

Lemma elementsOf_createLineBreak next :
  elementsOf ((createLineBreak settings next).1
                :: descendants (createLineBreak settings next).1)
  = [(createLineBreak settings next).1].
Proof.
  unfold elementsOf.
  rewrite filter_cons_True by apply createLineBreak_isText. f_equal.
  apply filter_nil_Forall.
  eapply Forall_impl; [apply createLineBreak_descendants|].
  simpl. intros n ->. done.
Qed.

Lemma elementsOf_Text i d :
  elementsOf ([Text i d] ≫= (λ c, c :: descendants c)) = [].
Proof. done. Qed.

(** A fragment brings one element for each piece but the last. *)
Lemma fragmentFrom_element_count parts next :
  length (elementsOf ((fragmentFrom settings parts next).1
                        ≫= (λ c, c :: descendants c)))
  = length parts - 1.
Proof.
  revert next. induction parts as [|part rest IH]; intros next; [done|].
  cbn [fragmentFrom].
  case_bool_decide; destruct rest as [|part' rest']; cbn [fst snd];
    try done.
  - rewrite bind_app, elementsOf_app, elementsOf_Text, app_nil_l.
    rewrite bind_cons, elementsOf_app, elementsOf_createLineBreak.
    cbn [app length]. rewrite IH. simpl. lia.
  - rewrite app_nil_l.
    rewrite bind_cons, elementsOf_app, elementsOf_createLineBreak.
    cbn [app length]. rewrite IH. simpl. lia.
Qed.

(** The substitution adds one element for each occurrence of the trigger
    word in a text node. *)
Lemma substitute_element_count n next :
  triggerWord settings ≠ [] →
  length (elementsOf ((substitute settings n next).1
                        ≫= (λ c, c :: descendants c)))
  = length (elementsOf (n :: descendants n))
    + sum_list_with
        (λ t, JS.occurrences (textContent t) (triggerWord settings))
        (filter (λ t, isText t = true) (n :: descendants n)).
Proof.
  intros Htok. revert next.
  induction n as [i d|i tag st cs IH] using Node_forest_ind; intros next.
  - cbn [descendants]. unfold elementsOf at 2.
    rewrite filter_cons_False, filter_cons_True, !filter_nil by done.
    cbn [length sum_list_with textContent substitute].
    pose proof (split_length d _ Htok) as Hlen.
    destruct (JS.includes d _) eqn:Hinc; cbn [andb].
    + rewrite bool_decide_eq_true_2
        by (apply includes_occurrences in Hinc; [lia|done]).
      rewrite buildFragment_from, fragmentFrom_element_count. lia.
    + cbn [fst]. rewrite bind_singleton. cbn [descendants].
      unfold elementsOf. rewrite filter_cons_False, filter_nil by done.
      assert (JS.occurrences d (triggerWord settings) = 0) as ->; [|done].
      destruct (JS.occurrences d (triggerWord settings)) eqn:Hocc; [done|].
      assert (JS.includes d (triggerWord settings) = true) as Hinc'
        by (apply includes_occurrences; [done|lia]).
      congruence.
  - cbn [substitute fst]. rewrite bind_singleton. cbn [descendants].
    assert (∀ next,
              length (elementsOf
                        ((bindAccum (substitute settings) cs next).1
                           ≫= (λ c, c :: descendants c)))
              = length (elementsOf (cs ≫= (λ c, c :: descendants c)))
                + sum_list_with
                    (λ t, JS.occurrences (textContent t) (triggerWord settings))
                    (filter (λ t, isText t = true)
                       (cs ≫= (λ c, c :: descendants c)))) as Hcs.
    { clear next. induction IH as [|c cs Hc _ IHcs]; intros next; [done|].
      cbn [bindAccum fst].
      rewrite bind_app, !bind_cons, !elementsOf_app, filter_app.
      rewrite sum_list_with_app, !length_app, Hc, IHcs. lia. }
    unfold elementsOf at 1 2.
    rewrite !filter_cons_True, filter_cons_False by done.
    cbn [length]. fold elementsOf.
    change (filter (λ n, isText n = false)) with elementsOf.
    rewrite Hcs. lia.
Qed.

End counting.

(** X13.  With a trigger word that is not empty, the call adds exactly one
    element for each occurrence of the trigger word in the text nodes
    below the root, occurrences counted text node by text node by the
    left-to-right scan of [split]; no element is removed. *)
Theorem one_marker_per_occurrence settings context dom :
  wf dom →
  triggerWord settings ≠ [] →
  ∃ dom',
    processLineBreaks settings dom context = Some dom'
    ∧ length (elementsOf (descendants dom'.1))
      = length (elementsOf (descendants dom.1))
        + sum_list_with
            (λ t, JS.occurrences (textContent t) (triggerWord settings))
            (treeWalkerShowText dom.1).
Proof.
  intros Hwf Htok. exists (substituteBelow settings dom).
  split; [by apply processLineBreaks_substitute|].
  destruct dom as [[i d|i tag st cs] next]; [done|].
  pose proof (substitute_element_count settings (Element i tag st cs) next
                Htok) as Hcount.
  cbn [substitute fst] in Hcount. rewrite bind_singleton in Hcount.
  unfold elementsOf in Hcount at 1 2.
  rewrite !filter_cons_True, filter_cons_False in Hcount by done.
  cbn [length] in Hcount. unfold substituteBelow. cbn [fst snd].
  injection Hcount as Hcount. exact Hcount.
Qed.

Lemma one_marker_per_occurrence_witness :
  let settings := DEFAULT_SETTINGS in
  let context := {| docId := js "doc"; sourcePath := js "note.md" |} in
  let dom : Dom :=
    (Element 0 (js "p") []
       [Text 1 (js "A.break..break.B");
        Element 2 (js "em") [] [Text 3 (js ".break.")]], 4) in
  wf dom
  ∧ triggerWord settings ≠ []
  ∧ ∃ dom',
      processLineBreaks settings dom context = Some dom'
      ∧ length (elementsOf (descendants dom'.1)) = 1 + 3.
Proof.
  intros settings context dom.
  assert (wf dom) as Hwf by by_decision.
  assert (triggerWord settings ≠ []) as Htok by done.
  split_and!; [done..|].
  destruct (one_marker_per_occurrence settings context dom Hwf Htok)
    as (dom' & Hcall & Hcount).
  exists dom'. split; [done|]. rewrite Hcount. vm_compute. reflexivity.
Defined.
